(** * RemMe: the persistence and normalisation layer of the bookmark manager

    A shallow embedding of [src/db.js] (the IndexedDB wrapper) and of the
    normalisation and import code of [src/App.jsx], with the properties the
    specification states about them.

    Conventions of the embedding:
    - a JavaScript string is the list of its UTF-16 code units;
    - a JavaScript number is [NaN], an infinity, or a finite value; finite
      doubles are rationals here, and [-0] is identified with [0] (the two
      are equal for [===], both are falsy, and both are the same IndexedDB
      key);
    - an [async] function is a function from the state of the world to an
      outcome (resolved or rejected) and the next state of the world;
    - [Date.now()] and [crypto.randomUUID()] are inputs of the functions
      that call them. *)

From stdpp Require Import base list strings numbers countable gmap pretty sorting.
From Stdlib Require Import QArith Qcanon.
From Stdlib Require Ascii String.

Set Warnings "-register-all".
Local Open Scope N_scope.

(** ** Strings *)

Abbreviation jsstring := (list N).

(** The code units of an ASCII literal. *)
Definition js (s : string) : jsstring :=
  Ascii.N_of_ascii <$> String.list_ascii_of_string s.
Arguments js _%_string.

Module JS.

(** [WhiteSpace] and [LineTerminator] of ECMAScript, the code units that
    [String.prototype.trim] strips. *)
Definition isWhiteSpace (c : N) : bool :=
  ((9 <=? c) && (c <=? 13)) || (c =? 32) || (c =? 160) || (c =? 5760)
  || ((8192 <=? c) && (c <=? 8202)) || (c =? 8232) || (c =? 8233)
  || (c =? 8239) || (c =? 8287) || (c =? 12288) || (c =? 65279).

Fixpoint trimStart (s : jsstring) : jsstring :=
  match s with
  | c :: r => if isWhiteSpace c then trimStart r else s
  | [] => []
  end.

Definition trimEnd (s : jsstring) : jsstring := rev (trimStart (rev s)).

Definition trim (s : jsstring) : jsstring := trimEnd (trimStart s).

(** [s.split(sep)] for a separator of one code unit: never the empty
    list, [''.split(',')] is [['']]. *)
Fixpoint split (sep : N) (s : jsstring) : list jsstring :=
  match s with
  | [] => [[]]
  | c :: r =>
      if c =? sep then [] :: split sep r
      else match split sep r with
           | p :: ps => (c :: p) :: ps
           | [] => [[c]]
           end
  end.

(** [Canonicalize] of a regular expression with the [i] flag and without
    the [u] flag, on the code units that can be equal to an ASCII one: a
    code unit above 127 never canonicalises to an ASCII code unit, so it is
    left as it is. *)
Definition canonicalize (c : N) : N :=
  if (97 <=? c) && (c <=? 122) then c - 32 else c.

(** Does [s] start with the literal pattern [pat], compared up to
    [canonicalize]? *)
Fixpoint startsWithCI (pat s : jsstring) : bool :=
  match pat, s with
  | [], _ => true
  | p :: pat', c :: s' =>
      (canonicalize p =? canonicalize c) && startsWithCI pat' s'
  | _ :: _, [] => false
  end.

(** Truthiness of a string: [Boolean(s)]. *)
Definition truthy_string (s : jsstring) : bool :=
  match s with [] => false | _ => true end.

(** Lower-casing of the Basic Latin block. *)
Definition asciiLower (c : N) : N :=
  if (65 <=? c) && (c <=? 90) then c + 32 else c.

End JS.

(** ** Normalizer: [normalizeUrl] and [parseTags] of App.jsx *)

(** [/^https?:\/\//i.test(s)]: the optional [s] either is there or is not,
    and the two alternatives start differently after [http]. *)
Definition schemeRegexTest (s : jsstring) : bool :=
  JS.startsWithCI (js "https://") s || JS.startsWithCI (js "http://") s.

(** [normalizeUrl(rawUrl)] for a string [rawUrl]. [!rawUrl] holds of the
    empty string only, and [trim] does not throw on a string, so the [catch]
    arm is not taken. *)
Definition normalizeUrl (rawUrl : jsstring) : jsstring :=
  if negb (JS.truthy_string rawUrl) then []
  else
    let trimmed := JS.trim rawUrl in
    if schemeRegexTest trimmed then trimmed
    else js "https://" ++ trimmed.

Section ParseTags.

(** [String.prototype.toLowerCase], the Unicode default lower-casing. *)
Variable toLowerCase : jsstring → jsstring.

(** [input.split(',').map(trim).filter(Boolean).map(toLowerCase)] *)
Definition parseTags (input : jsstring) : list jsstring :=
  toLowerCase <$>
    filter (λ tag, Is_true (JS.truthy_string tag))
      (JS.trim <$> JS.split 44 input).

End ParseTags.

(** ** JavaScript values *)

Inductive number :=
| NaN
| Infinity (negative : bool)
| Finite (q : Qc).

(** The values [JSON.parse] can build, and [undefined], which reading a
    missing property gives. *)
Inductive value :=
| VUndefined
| VNull
| VBool (b : bool)
| VNumber (n : number)
| VString (s : jsstring)
| VArray (xs : list value)
| VObject (props : list (jsstring * value)).

(** What is thrown, or handed to [reject]. [NullReason] is the value
    [null]: what [reject] is given by a handler that reads an error which is
    not set yet. *)
Inductive exn :=
| TypeError
| SyntaxError
| DataError
| ConstraintError
| OpenError (attempt : nat)
| NullReason.

(** The completion of a synchronous computation. *)
Inductive completion (A : Type) :=
| Return (a : A)
| Throw (e : exn).
Arguments Return {A} a.
Arguments Throw {A} e.

Global Instance completion_ret : MRet completion := @Return.

Global Instance completion_bind : MBind completion := λ A B k c,
  match c with
  | Return a => k a
  | Throw e => Throw e
  end.

Module Value.

(** [ToBoolean] *)
Definition truthy (v : value) : bool :=
  match v with
  | VUndefined | VNull => false
  | VBool b => b
  | VNumber NaN => false
  | VNumber (Infinity _) => true
  | VNumber (Finite q) => negb (bool_decide (q = 0%Qc))
  | VString s => JS.truthy_string s
  | VArray _ | VObject _ => true
  end.

(** The own property [name] of an object built by [JSON.parse]. *)
Fixpoint own (name : jsstring) (props : list (jsstring * value)) : option value :=
  match props with
  | [] => None
  | (k, v) :: rest => if bool_decide (k = name) then Some v else own name rest
  end.

(** [v.name] for the property names the import code reads ([links],
    [url], [id], [title], [note], [tags], [createdAt], [updatedAt]): none
    of them is on a prototype, so only an object has them, as own
    properties. The callers guard [null] and [undefined] ([data?.links],
    [item && ...]). *)
Definition get (name : jsstring) (v : value) : value :=
  match v with
  | VObject props => default VUndefined (own name props)
  | _ => VUndefined
  end.

(** [typeof v === 'string'] *)
Definition isString (v : value) : bool :=
  match v with VString _ => true | _ => false end.

(** [Array.isArray(v)] *)
Definition isArray (v : value) : bool :=
  match v with VArray _ => true | _ => false end.

(** [Number.isFinite(v)] *)
Definition isFinite (v : value) : bool :=
  match v with VNumber (Finite _) => true | _ => false end.

Section ToString.

(** [Number.prototype.toString], the shortest decimal that reads back. *)
Variable numberToString : number → jsstring.

(** [v.toString()]. An element of an array is converted by [join], which
    turns [null] and [undefined] into the empty string. An object of
    [JSON.parse] with an own property [toString] has a value there that
    cannot be called. *)
Fixpoint toString (v : value) : completion jsstring :=
  match v with
  | VUndefined | VNull => Throw TypeError
  | VBool b => Return (js (if b then "true" else "false"))
  | VNumber n => Return (numberToString n)
  | VString s => Return s
  | VArray xs =>
      (fix join (xs : list value) : completion jsstring :=
         match xs with
         | [] => Return []
         | x :: rest =>
             s ← match x with
                 | VUndefined | VNull => Return []
                 | _ => toString x
                 end;
             match rest with
             | [] => Return s
             | _ => r ← join rest; Return (s ++ js "," ++ r)
             end
         end) xs
  | VObject props =>
      match own (js "toString") props with
      | Some _ => Throw TypeError
      | None => Return (js "[object Object]")
      end
  end.

End ToString.

End Value.

(** ** Link records *)

Record Link := {
  id : value;
  url : jsstring;
  title : jsstring;
  note : jsstring;
  tags : list jsstring;
  createdAt : number;
  updatedAt : number
}.

(** The add and edit forms: four text fields. *)
Record Form := {
  form_url : jsstring;
  form_title : jsstring;
  form_note : jsstring;
  form_tags : jsstring
}.

(** [a || b] on two strings. *)
Definition orElse (a b : jsstring) : jsstring :=
  if JS.truthy_string a then a else b.

(** ** The object store of IndexedDB *)

(** The keys of IndexedDB that a JSON value can be: a number other than
    [NaN], a string, or an array of keys. *)
Inductive Key :=
| KNumber (n : number)
| KString (s : jsstring)
| KArray (ks : list Key).

(** "Convert a value to a key" of the IndexedDB standard; [None] when the
    value is not a valid key. *)
Fixpoint toKey (v : value) : option Key :=
  match v with
  | VNumber NaN => None
  | VNumber n => Some (KNumber n)
  | VString s => Some (KString s)
  | VArray xs =>
      KArray <$>
        (fix keys (xs : list value) : option (list Key) :=
           match xs with
           | [] => Some []
           | x :: rest =>
               match toKey x, keys rest with
               | Some k, Some ks => Some (k :: ks)
               | _, _ => None
               end
           end) xs
  | _ => None
  end.

Global Instance number_eq_dec : EqDecision number.
Proof. solve_decision. Defined.

Definition number_encode (n : number) : unit + (bool + Qc) :=
  match n with
  | NaN => inl ()
  | Infinity b => inr (inl b)
  | Finite q => inr (inr q)
  end.

Definition number_decode (x : unit + (bool + Qc)) : number :=
  match x with
  | inl _ => NaN
  | inr (inl b) => Infinity b
  | inr (inr q) => Finite q
  end.

Global Instance number_countable : Countable number.
Proof.
  apply (inj_countable' number_encode number_decode).
  intros []; reflexivity.
Defined.

Fixpoint Key_encode (k : Key) : gen_tree (number + jsstring) :=
  match k with
  | KNumber n => GenLeaf (inl n)
  | KString s => GenLeaf (inr s)
  | KArray ks => GenNode 0 (Key_encode <$> ks)
  end.

Fixpoint Key_decode (t : gen_tree (number + jsstring)) : Key :=
  match t with
  | GenLeaf (inl n) => KNumber n
  | GenLeaf (inr s) => KString s
  | GenNode _ ts => KArray (Key_decode <$> ts)
  end.

Lemma Key_decode_encode (k : Key) : Key_decode (Key_encode k) = k.
Proof.
  revert k. fix IH 1. intros [n|s|ks]; simpl; try reflexivity.
  f_equal. induction ks as [|k ks IHks]; [reflexivity|].
  rewrite !fmap_cons. f_equal; [apply IH | apply IHks].
Defined.

Global Instance Key_eq_dec : EqDecision Key.
Proof.
  intros x y. destruct (decide (Key_encode x = Key_encode y)) as [E|E].
  - left. rewrite <- (Key_decode_encode x), <- (Key_decode_encode y), E.
    reflexivity.
  - right. intros ->. apply E. reflexivity.
Defined.

Global Instance Key_countable : Countable Key.
Proof.
  exact (inj_countable' Key_encode Key_decode Key_decode_encode).
Defined.

(** The outcome of a request made on an object store inside a transaction:
    the call throws, or the request is placed and later fails, which aborts
    the transaction, or it succeeds with the new content of the store. *)
Inductive request :=
| ReqThrows (e : exn)
| ReqFails (e : exn)
| ReqSucceeds (objects : gmap Key Link).

Module IDBObjectStore.

(** The key path of the store is ['id']. *)
Definition keyOf (link : Link) : option Key := toKey (id link).

Definition add (link : Link) (objects : gmap Key Link) : request :=
  match keyOf link with
  | None => ReqThrows DataError
  | Some k =>
      match objects !! k with
      | Some _ => ReqFails ConstraintError
      | None => ReqSucceeds (<[k := link]> objects)
      end
  end.

Definition put (link : Link) (objects : gmap Key Link) : request :=
  match keyOf link with
  | None => ReqThrows DataError
  | Some k => ReqSucceeds (<[k := link]> objects)
  end.

Definition delete (key : value) (objects : gmap Key Link) : request :=
  match toKey key with
  | None => ReqThrows DataError
  | Some k => ReqSucceeds (base.delete k objects)
  end.

(** The records, listed in the order of the map; the callers do not rely
    on an order. *)
Definition getAll (objects : gmap Key Link) : list Link :=
  (map_to_list objects).*2.

End IDBObjectStore.

(** ** db.js *)

(** How a promise settles. *)
Inductive settlement (A : Type) :=
| Fulfilled (a : A)
| Rejected (e : exn).
Arguments Fulfilled {A} a.
Arguments Rejected {A} e.

(** The state an operation of db.js runs in: the module variable
    [dbPromise] ([None] for [null], otherwise the memoised promise, given by
    the way it settles), the number of calls of [indexedDB.open] made so far,
    the answer the browser gives to each of these calls, and the content of
    the object store ['links']. *)
Record World := {
  dbPromise : option (settlement ());
  openCalls : nat;
  idbOpenOk : nat → bool;
  objects : gmap Key Link
}.

Definition setObjects (o : gmap Key Link) (w : World) : World :=
  {| dbPromise := dbPromise w; openCalls := openCalls w;
     idbOpenOk := idbOpenOk w; objects := o |}.

(** The process starts with [dbPromise = null]. *)
Definition startWorld (browser : nat → bool) (stored : gmap Key Link) : World :=
  {| dbPromise := None; openCalls := 0; idbOpenOk := browser; objects := stored |}.

(** [openDB()]: the promise is created, and [indexedDB.open] called, only
    when [dbPromise] is [null]; the assignment is made before the function
    returns, whatever the request does later. [onupgradeneeded] creates the
    object store when the database is new, so an opened database has it. *)
Definition openDB (w : World) : settlement () * World :=
  match dbPromise w with
  | Some p => (p, w)
  | None =>
      let p := if idbOpenOk w (openCalls w) then Fulfilled ()
               else Rejected (OpenError (openCalls w)) in
      (p, {| dbPromise := Some p; openCalls := S (openCalls w);
             idbOpenOk := idbOpenOk w; objects := objects w |})
  end.

(** [withStore('readwrite', callback)]. A call of [callback] that throws
    rejects the promise with what is thrown, no request placed. A request
    that fails fires an error event that reaches [tx.onerror], which rejects
    with [tx.error]; the error of the transaction is set only when the
    transaction is aborted, after that event, so what [reject] is given is
    [null], and the later [tx.onabort] finds the promise settled. The abort
    writes nothing. [tx.oncomplete] resolves. *)
Definition withStore (callback : gmap Key Link → request) (w : World)
  : settlement () * World :=
  let '(db, w1) := openDB w in
  match db with
  | Rejected e => (Rejected e, w1)
  | Fulfilled _ =>
      match callback (objects w1) with
      | ReqThrows e => (Rejected e, w1)
      | ReqFails _ => (Rejected NullReason, w1)
      | ReqSucceeds o => (Fulfilled (), setObjects o w1)
      end
  end.

Definition getAllLinks (w : World) : settlement (list Link) * World :=
  let '(db, w1) := openDB w in
  match db with
  | Rejected e => (Rejected e, w1)
  | Fulfilled _ => (Fulfilled (IDBObjectStore.getAll (objects w1)), w1)
  end.

Definition addLink (link : Link) : World → settlement () * World :=
  withStore (IDBObjectStore.add link).

Definition updateLink (link : Link) : World → settlement () * World :=
  withStore (IDBObjectStore.put link).

Definition deleteLink (key : value) : World → settlement () * World :=
  withStore (IDBObjectStore.delete key).

(** The names db.js exports: four functions and two constants. *)
Definition db_exports : list string :=
  ["getAllLinks"; "addLink"; "updateLink"; "deleteLink"; "DB_NAME"; "STORE_NAME"]%string.

(** The names App.jsx imports from ['./db']. *)
Definition App_imports : list string :=
  ["addLink"; "deleteLink"; "getAllLinks"; "putLinks"; "updateLink"]%string.

(** A batch write, as App.jsx calls it: [putLinks(merged)]. *)
Abbreviation BatchPut := (list Link → World → settlement () * World).

(** The binding of [putLinks] in App.jsx: db.js neither defines nor exports
    a function of that name, so there is nothing to call, and the call
    [putLinks(merged)] throws a [TypeError]. (A loader that checks the
    imports when it links the modules refuses App.jsx altogether; the import
    writes nothing then either.) *)
Definition putLinks : option BatchPut := None.

(** The operations of the store, to run one after the other. *)
Inductive operation :=
| OpGetAll
| OpAdd (link : Link)
| OpUpdate (link : Link)
| OpDelete (key : value).

(** An operation's settlement, without the value it resolves to. *)
Definition runOp (op : operation) (w : World) : settlement () * World :=
  match op with
  | OpGetAll =>
      let '(r, w1) := getAllLinks w in
      (match r with Fulfilled _ => Fulfilled () | Rejected e => Rejected e end, w1)
  | OpAdd link => addLink link w
  | OpUpdate link => updateLink link w
  | OpDelete key => deleteLink key w
  end.

Fixpoint runOps (ops : list operation) (w : World) : list (settlement ()) * World :=
  match ops with
  | [] => ([], w)
  | op :: rest =>
      let '(r, w1) := runOp op w in
      let '(rs, w2) := runOps rest w1 in
      (r :: rs, w2)
  end.

(** ** App.jsx: the handlers that write to the store

    Of the component state, the handlers are given what they read (the
    form, the in-memory [links]) and return the message they set and the
    world they leave; the view state they also set is left out. *)

Inductive ImportMessage :=
| NoValidLinks
| AllExist
| Imported (n : nat)
| CouldNotImport.

(** The text [setImportMessage] is given. *)
Definition importMessageText (m : ImportMessage) : jsstring :=
  match m with
  | NoValidLinks => js "No valid links found in that file."
  | AllExist => js "All links already exist."
  | Imported n =>
      js "Imported " ++ js (pretty (N.of_nat n)) ++ js " link"
      ++ (if bool_decide (n = 1%nat) then [] else js "s") ++ js "."
  | CouldNotImport => js "Could not import that file."
  end.

Section App.

Variable toLowerCase : jsstring → jsstring.
Variable numberToString : number → jsstring.

(** The record [handleAdd] builds. *)
Definition newLink (form : Form) (uuid : jsstring) (now : Qc) : Link :=
  let normalized := normalizeUrl (form_url form) in
  {| id := VString uuid;
     url := normalized;
     title := orElse (JS.trim (form_title form)) normalized;
     note := JS.trim (form_note form);
     tags := parseTags toLowerCase (form_tags form);
     createdAt := Finite now;
     updatedAt := Finite now |}.

(** [handleAdd]: the error message it leaves (empty on success) and the
    world. [uuid] is what [crypto.randomUUID()] gives and [now] what
    [Date.now()] gives. *)
Definition handleAdd (form : Form) (uuid : jsstring) (now : Qc) (w : World)
  : jsstring * World :=
  if negb (JS.truthy_string (JS.trim (form_url form)))
  then (js "Please enter a URL.", w)
  else
    match addLink (newLink form uuid now) w with
    | (Fulfilled _, w1) => ([], w1)
    | (Rejected _, w1) => (js "Could not save that link.", w1)
    end.

(** The record [saveEdit] builds: [{...link, url, title, note, tags,
    updatedAt}]. *)
Definition updatedLink (link : Link) (editForm : Form) (now : Qc) : Link :=
  {| id := id link;
     url := normalizeUrl (form_url editForm);
     title := orElse (JS.trim (form_title editForm)) (normalizeUrl (form_url editForm));
     note := JS.trim (form_note editForm);
     tags := parseTags toLowerCase (form_tags editForm);
     createdAt := createdAt link;
     updatedAt := Finite now |}.

(** [saveEdit(link)]: the error message it sets, if any, and the world. *)
Definition saveEdit (link : Link) (editForm : Form) (now : Qc) (w : World)
  : option jsstring * World :=
  match updateLink (updatedLink link editForm now) w with
  | (Fulfilled _, w1) => (None, w1)
  | (Rejected _, w1) => (Some (js "Could not update that link."), w1)
  end.

(** [removeLink(link)] *)
Definition removeLink (link : Link) (w : World) : option jsstring * World :=
  match deleteLink (id link) w with
  | (Fulfilled _, w1) => (None, w1)
  | (Rejected _, w1) => (Some (js "Could not delete that link."), w1)
  end.

(** The filter of [normalizeImportedLinks]: [item && typeof item.url ===
    'string'], with the string that [item.url] then is. *)
Definition survivor (item : value) : option (value * jsstring) :=
  if Value.truthy item then
    match Value.get (js "url") item with
    | VString raw => Some (item, raw)
    | _ => None
    end
  else None.

(** [item.tags.map((tag) => tag.toString().toLowerCase().trim())] *)
Fixpoint importedTags (tags : list value) : completion (list jsstring) :=
  match tags with
  | [] => Return []
  | tag :: rest =>
      s ← Value.toString numberToString tag;
      ts ← importedTags rest;
      Return (JS.trim (toLowerCase s) :: ts)
  end.

(** The body of the [map] of [normalizeImportedLinks], for a survivor of
    the filter. *)
Definition importedLink (item : value) (raw : jsstring) (uuid : jsstring) (now : Qc)
  : completion Link :=
  let normalizedUrl := normalizeUrl raw in
  let item_id := Value.get (js "id") item in
  let item_title := Value.get (js "title") item in
  let item_note := Value.get (js "note") item in
  let item_tags := Value.get (js "tags") item in
  let item_createdAt := Value.get (js "createdAt") item in
  let item_updatedAt := Value.get (js "updatedAt") item in
  t ← Value.toString numberToString
        (if Value.truthy item_title then item_title else VString normalizedUrl);
  n ← Value.toString numberToString
        (if Value.truthy item_note then item_note else VString []);
  ts ← match item_tags with
       | VArray tags =>
           l ← importedTags tags;
           Return (filter (λ tag, Is_true (JS.truthy_string tag)) l)
       | _ => Return []
       end;
  Return
    {| id := if Value.truthy item_id then item_id else VString uuid;
       url := normalizedUrl;
       title := JS.trim t;
       note := JS.trim n;
       tags := ts;
       createdAt := match item_createdAt with
                    | VNumber (Finite q) => Finite q
                    | _ => Finite now
                    end;
       updatedAt := match item_updatedAt with
                    | VNumber (Finite q) => Finite q
                    | _ => Finite now
                    end |}.

(** The [map] over the survivors; the survivor at position [i] is given
    [uuids i] by [crypto.randomUUID()] and [clock i] by [Date.now()]. *)
Fixpoint importedLinks (i : nat) (items : list (value * jsstring))
    (uuids : nat → jsstring) (clock : nat → Qc) : completion (list Link) :=
  match items with
  | [] => Return []
  | (item, raw) :: rest =>
      l ← importedLink item raw (uuids i) (clock i);
      ls ← importedLinks (S i) rest uuids clock;
      Return (l :: ls)
  end.

(** [normalizeImportedLinks(data)] *)
Definition normalizeImportedLinks (data : value) (uuids : nat → jsstring)
    (clock : nat → Qc) : completion (list Link) :=
  let list := if Value.isArray data then data else Value.get (js "links") data in
  match list with
  | VArray items => importedLinks 0 (omap survivor items) uuids clock
  | _ => Return []
  end.

(** [importLinks(event)], with [putLinks] bound to [batch]. [file] is
    [None] when no file was chosen, and otherwise what
    [JSON.parse(await file.text())] gives or throws; [links] is the
    in-memory collection. The result is the import message set last, if
    any, and the world. *)
Definition importLinksWith (batch : option BatchPut)
    (file : option (completion value)) (links : list Link)
    (uuids : nat → jsstring) (clock : nat → Qc) (w : World)
  : option ImportMessage * World :=
  match file with
  | None => (None, w)
  | Some parsed =>
      match (data ← parsed; normalizeImportedLinks data uuids clock) with
      | Throw _ => (Some CouldNotImport, w)
      | Return incoming =>
          if bool_decide (length incoming = 0%nat) then (Some NoValidLinks, w)
          else
            let existingByUrl : gset jsstring := list_to_set (url <$> links) in
            let merged :=
              filter (λ link, url link ∉ existingByUrl) incoming in
            if bool_decide (length merged = 0%nat) then (Some AllExist, w)
            else
              match batch with
              | None => (Some CouldNotImport, w)
              | Some put =>
                  match put merged w with
                  | (Fulfilled _, w1) => (Some (Imported (length merged)), w1)
                  | (Rejected _, w1) => (Some CouldNotImport, w1)
                  end
              end
      end
  end.

(** [importLinks] as App.jsx has it. *)
Definition importLinks := importLinksWith putLinks.

End App.

(** ** Notions the statements use *)

(** [s] starts with [http://] or [https://], in any case of the letters. *)
Definition startsWithScheme (s : jsstring) : Prop :=
  ∃ p rest, s = p ++ rest
    ∧ (JS.asciiLower <$> p = js "http://" ∨ JS.asciiLower <$> p = js "https://").

(** Every code unit of [s] is white space. *)
Definition whiteSpaceOnly (s : jsstring) : Prop :=
  Forall (λ c, JS.isWhiteSpace c = true) s.

(** [toLowerCase] on the strings of the Basic Latin block, where it changes
    the letters [A] to [Z] only; the examples are evaluated with it. *)
Definition asciiToLowerCase (s : jsstring) : jsstring := JS.asciiLower <$> s.

(** What is asked of [toLowerCase]: Unicode lower-casing maps no code point
    to the empty string, and on Basic Latin it is [asciiToLowerCase]. *)
Definition lowerCasing (toLowerCase : jsstring → jsstring) : Prop :=
  (∀ s, s ≠ [] → toLowerCase s ≠ [])
  ∧ (∀ s, Forall (λ c, c < 128) s → toLowerCase s = asciiToLowerCase s).

(** The database can be used: the memoised promise is fulfilled, or there
    is none yet and the browser opens the database at the next call. *)
Definition opens (w : World) : Prop := (openDB w).1 = Fulfilled ().

(** Modelled from the spec: the batch upsert [putMany(links)] of section
    4.1, which db.js does not have. Every record is put in one transaction;
    when a write fails the transaction aborts and nothing of the batch is
    written. *)
Fixpoint putAll (links : list Link) (objects : gmap Key Link) : request :=
  match links with
  | [] => ReqSucceeds objects
  | link :: rest =>
      match IDBObjectStore.put link objects with
      | ReqSucceeds o => putAll rest o
      | failure => failure
      end
  end.

(** Modelled from the spec: [putMany], one call of [withStore]. *)
Definition putMany (links : list Link) : World → settlement () * World :=
  withStore (putAll links).

(** ** Sample data, for the examples *)

(** A whole number, as [Date.now()] gives one, and as a [number]. *)
Definition ms (z : Z) : Qc := Q2Qc (inject_Z z).
Definition int (z : Z) : number := Finite (ms z).

Definition linkX : Link :=
  {| id := VString (js "id-x"); url := js "https://x.com"; title := js "X";
     note := []; tags := [js "design"];
     createdAt := int 1000; updatedAt := int 1000 |}.

Definition keyX : Key := KString (js "id-x").

(** A browser that opens the database, and a store that holds [linkX]. *)
Definition worldX : World := startWorld (λ _, true) {[ keyX := linkX ]}.

(** A record with a new id. *)
Definition linkY : Link :=
  {| id := VString (js "id-y"); url := js "https://y.com"; title := js "Y";
     note := []; tags := [];
     createdAt := int 2000; updatedAt := int 2000 |}.

Definition keyY : Key := KString (js "id-y").

(** An import file with a record for the url of [linkX] and one that is
    [linkY]. *)
Definition fileXY : value :=
  VObject
    [ (js "version", VNumber (int 1));
      (js "links",
       VArray
         [ VObject [ (js "id", VString (js "id-x2"));
                     (js "url", VString (js "https://x.com"));
                     (js "title", VString (js "X again")) ];
           VObject [ (js "id", VString (js "id-y"));
                     (js "url", VString (js "https://y.com"));
                     (js "title", VString (js "Y"));
                     (js "note", VString []);
                     (js "tags", VArray []);
                     (js "createdAt", VNumber (int 2000));
                     (js "updatedAt", VNumber (int 2000)) ] ]) ].

(** An imported candidate whose id is the number 42. *)
Definition item42 : value :=
  VObject [ (js "id", VNumber (int 42)); (js "url", VString (js "https://x.com")) ].

(** A candidate of the shape the export writes: title and note are strings
    or missing, tags is an array of strings or missing. *)
Definition plainText (v : value) : bool :=
  match v with VUndefined | VString _ => true | _ => false end.

Definition plainTags (v : value) : bool :=
  match v with
  | VUndefined => true
  | VArray ts => forallb Value.isString ts
  | _ => false
  end.

Definition plainItem (item : value) : bool :=
  plainText (Value.get (js "title") item)
  && plainText (Value.get (js "note") item)
  && plainTags (Value.get (js "tags") item).

(** ** More of App.jsx: the editor, the view and the export *)

(** [xs.join(sep)] on an array of strings. *)
Fixpoint join (sep : jsstring) (xs : list jsstring) : jsstring :=
  match xs with
  | [] => []
  | [x] => x
  | x :: rest => x ++ sep ++ join sep rest
  end.

(** [startEdit(link)]: the edit form is filled from the record, the tags
    joined by a comma and a space. *)
Definition startEdit (link : Link) : Form :=
  {| form_url := url link;
     form_title := title link;
     form_note := note link;
     form_tags := join (js ", ") (tags link) |}.

(** Does [s] start with [q], code unit by code unit? *)
Fixpoint startsWith (q s : jsstring) : bool :=
  match q, s with
  | [], _ => true
  | c :: q', d :: s' => (c =? d) && startsWith q' s'
  | _ :: _, [] => false
  end.

(** [s.includes(q)] on strings. *)
Fixpoint includes (s q : jsstring) : bool :=
  startsWith q s || match s with [] => false | _ :: s' => includes s' q end.

(** [a < b] on strings: the order of the code units, a proper prefix
    first. It is the order [Array.prototype.sort] uses without a
    comparator. *)
Fixpoint stringLt (a b : jsstring) : bool :=
  match a, b with
  | _, [] => false
  | [], _ :: _ => true
  | c :: a', d :: b' => (c <? d) || ((c =? d) && stringLt a' b')
  end.

(** A stable sort: [lt x y] says that [x] has to come before [y]. An
    element goes behind those that have to come before it, and before the
    others. For a consistent comparator the result of
    [Array.prototype.sort], which is stable, is this list. *)
Fixpoint insertSorted {A} (lt : A → A → bool) (x : A) (sorted : list A) : list A :=
  match sorted with
  | [] => [x]
  | y :: rest => if lt y x then y :: insertSorted lt x rest else x :: sorted
  end.

Definition stableSort {A} (lt : A → A → bool) (l : list A) : list A :=
  foldr (insertSorted lt) [] l.

(** [tagSet.add(tag)] for each of [xs], the set listed in insertion
    order. *)
Fixpoint setAddAll (set xs : list jsstring) : list jsstring :=
  match xs with
  | [] => set
  | x :: rest => setAddAll (if decide (x ∈ set) then set else set ++ [x]) rest
  end.

(** [allTags]: the tags of all links, each once, sorted. *)
Definition allTags (links : list Link) : list jsstring :=
  stableSort stringLt (setAddAll [] (concat (tags <$> links))).

(** Is [x - y] negative, in the arithmetic of doubles? With a [NaN] or
    two infinities of one sign the difference is [NaN], which is not. *)
Definition minusNegative (x y : number) : bool :=
  match x, y with
  | NaN, _ | _, NaN => false
  | Infinity nx, Infinity ny => nx && negb ny
  | Infinity nx, Finite _ => nx
  | Finite _, Infinity ny => negb ny
  | Finite p, Finite q => bool_decide (p < q)%Qc
  end.

(** The comparator [(a, b) => b.createdAt - a.createdAt] is negative:
    [a] comes before [b]. *)
Definition newerFirst (a b : Link) : bool :=
  minusNegative (createdAt b) (createdAt a).

(** The effect that loads the collection when the component mounts:
    [getAllLinks()], then the records sorted by [createdAt], the newest
    first, or the error message. The result is the in-memory [links], the
    message and the world. *)
Definition loadLinks (w : World) : list Link * jsstring * World :=
  match getAllLinks w with
  | (Fulfilled data, w1) => (stableSort newerFirst data, [], w1)
  | (Rejected _, w1) => ([], js "Could not load your saved links.", w1)
  end.

Section View.

Variable toLowerCase : jsstring → jsstring.

(** The text a search looks into:
    [`${title} ${url} ${note} ${tags.join(' ')}`.toLowerCase()]. *)
Definition haystack (link : Link) : jsstring :=
  toLowerCase
    (title link ++ js " " ++ url link ++ js " " ++ note link ++ js " "
     ++ join (js " ") (tags link)).

(** [filteredLinks]: the links shown for a search text and a tag filter,
    where the filter ['all'] stands for no filter. *)
Definition filteredLinks (links : list Link) (search tagFilter : jsstring)
  : list Link :=
  let query := toLowerCase (JS.trim search) in
  filter
    (λ link,
       Is_true
         (if negb (bool_decide (tagFilter = js "all"))
             && negb (bool_decide (tagFilter ∈ tags link))
          then false
          else if negb (JS.truthy_string query) then true
          else includes (haystack link) query))
    links.

End View.

Module JSON.

(** What [JSON.stringify] writes for a number: [null] unless it is
    finite. *)
Definition number (n : number) : value :=
  match n with
  | Finite q => VNumber (Finite q)
  | _ => VNull
  end.

(** [JSON.parse(JSON.stringify(v))], [None] where [stringify] writes
    nothing: [undefined] is left out of an object and becomes [null] in an
    array. Strings and finite numbers read back as they are. *)
Fixpoint clone (v : value) : option value :=
  match v with
  | VUndefined => None
  | VNull => Some VNull
  | VBool b => Some (VBool b)
  | VNumber n => Some (number n)
  | VString s => Some (VString s)
  | VArray xs => Some (VArray ((λ x, default VNull (clone x)) <$> xs))
  | VObject props =>
      Some (VObject
              ((fix members (props : list (jsstring * value)) :=
                  match props with
                  | [] => []
                  | (k, x) :: rest =>
                      match clone x with
                      | Some y => (k, y) :: members rest
                      | None => members rest
                      end
                  end) props))
  end.

(** A link record, written and read back. *)
Definition link (l : Link) : value :=
  VObject
    (match clone (id l) with
     | Some i => [(js "id", i)]
     | None => []
     end
     ++ [ (js "url", VString (url l));
          (js "title", VString (title l));
          (js "note", VString (note l));
          (js "tags", VArray (VString <$> tags l));
          (js "createdAt", number (createdAt l));
          (js "updatedAt", number (updatedAt l)) ]).

End JSON.

(** [exportLinks]: the payload [{exportedAt, version: 1, links}] as
    [JSON.parse] reads it back from the file; [exportedAt] is what
    [new Date().toISOString()] gave. *)
Definition exportLinks (exportedAt : jsstring) (links : list Link) : value :=
  VObject
    [ (js "exportedAt", VString exportedAt);
      (js "version", VNumber (Finite 1%Qc));
      (js "links", VArray (JSON.link <$> links)) ].

(** A tag in the form [parseTags] gives: not empty, without white space at
    the ends, without a comma, and left alone by [toLowerCase]. *)
Definition normalTag (toLowerCase : jsstring → jsstring) (t : jsstring) : Prop :=
  t ≠ [] ∧ JS.trim t = t ∧ (44 ∉ t) ∧ toLowerCase t = t.

(** What the text of such a tag needs to be lower-cased into one: the
    lower-casing of a string keeps it non-empty, free of white space at the
    ends and free of commas, and lower-casing twice is lower-casing once. *)
Definition tagCasing (toLowerCase : jsstring → jsstring) : Prop :=
  ∀ s, s ≠ [] → JS.trim s = s → 44 ∉ s → normalTag toLowerCase (toLowerCase s).

(** A record in the form the handlers give: the url is a value of
    [normalizeUrl], title and note have no white space at the ends, the
    title is not empty, and the tags are normal. *)
Definition normalLink (toLowerCase : jsstring → jsstring) (l : Link) : Prop :=
  normalizeUrl (url l) = url l
  ∧ JS.trim (title l) = title l ∧ title l ≠ []
  ∧ JS.trim (note l) = note l
  ∧ Forall (normalTag toLowerCase) (tags l).

(** Every record of the store is under the key of its own id, as the key
    path ['id'] of the object store has it. *)
Definition wellKeyed (objects : gmap Key Link) : Prop :=
  ∀ k l, objects !! k = Some l → toKey (id l) = Some k.

(** [x <= y] on the numbers that are not [NaN]. *)
Definition numberLe (x y : number) : Prop :=
  match x, y with
  | NaN, _ | _, NaN => False
  | Infinity true, _ => True
  | _, Infinity false => True
  | Finite p, Finite q => (p ≤ q)%Qc
  | _, _ => False
  end.

(** A record that the export and the import give back as it is: normal,
    with a non-empty string for id and finite timestamps. *)
Definition exportable (toLowerCase : jsstring → jsstring) (l : Link) : Prop :=
  normalLink toLowerCase l
  ∧ (∃ s, id l = VString s ∧ s ≠ [])
  ∧ (∃ q, createdAt l = Finite q)
  ∧ (∃ q, updatedAt l = Finite q).

(** The array [normalizeImportedLinks] goes through: [data] itself or
    [data.links], and nothing when neither is an array. *)
Definition candidates (data : value) : list value :=
  match (if Value.isArray data then data else Value.get (js "links") data) with
  | VArray items => items
  | _ => []
  end.

(** What the import guarantees of a record it builds, whatever the file
    holds. *)
Definition importedShape (l : Link) : Prop :=
  (∃ q, createdAt l = Finite q) ∧ (∃ q, updatedAt l = Finite q)
  ∧ (url l = [] ∨ startsWithScheme (url l))
  ∧ JS.trim (title l) = title l ∧ JS.trim (note l) = note l
  ∧ Forall (λ t, t ≠ []) (tags l).

(** * Properties *)

(** ** Strings *)

Lemma trimStart_whiteSpaceOnly (s : jsstring) :
  whiteSpaceOnly s → JS.trimStart s = [].
Proof.
  induction 1 as [|c s Hc _ IH]; simpl; [reflexivity|].
  rewrite Hc. exact IH.
Qed.

Lemma trim_whiteSpaceOnly (s : jsstring) : whiteSpaceOnly s → JS.trim s = [].
Proof.
  intros H. unfold JS.trim. rewrite (trimStart_whiteSpaceOnly s H). reflexivity.
Qed.

(** A pattern code unit that is not an upper-case letter matches, up to
    [canonicalize], the code units that lower-case to it. *)
Lemma canonicalize_asciiLower (p c : N) :
  ¬ (65 ≤ p ≤ 90) →
  (JS.canonicalize p =? JS.canonicalize c) = true ↔ JS.asciiLower c = p.
Proof.
  intros Hp. unfold JS.canonicalize, JS.asciiLower.
  rewrite N.eqb_eq.
  destruct (N.leb_spec 97 p), (N.leb_spec p 122),
           (N.leb_spec 97 c), (N.leb_spec c 122),
           (N.leb_spec 65 c), (N.leb_spec c 90); simpl; lia.
Qed.

Lemma startsWithCI_prefix (pat s : jsstring) :
  Forall (λ p, ¬ (65 ≤ p ≤ 90)) pat →
  JS.startsWithCI pat s = true
  ↔ ∃ p rest, s = p ++ rest ∧ JS.asciiLower <$> p = pat.
Proof.
  intros Hpat. revert s.
  induction Hpat as [|p pat Hp _ IH]; intros s; simpl.
  - split; [|reflexivity]. intros _. exists [], s. split; reflexivity.
  - destruct s as [|c s].
    + split; [discriminate|]. intros (q & rest & E & Hq).
      destruct q; [discriminate|]. discriminate.
    + rewrite andb_true_iff, (canonicalize_asciiLower p c Hp), IH. split.
      * intros (Hc & q & rest & -> & Hq). exists (c :: q), rest.
        split; [reflexivity|]. rewrite fmap_cons, Hc, Hq. reflexivity.
      * intros (q & rest & E & Hq). destruct q as [|c' q]; [discriminate|].
        rewrite fmap_cons in Hq. injection Hq as Hc Hq.
        injection E as -> ->. split; [exact Hc|]. exists q, rest.
        split; [reflexivity | exact Hq].
Qed.

Lemma schemeRegexTest_spec (s : jsstring) :
  schemeRegexTest s = true ↔ startsWithScheme s.
Proof.
  assert (Hs : Forall (λ p : N, ¬ (65 ≤ p ≤ 90)) (js "https://")).
  { unfold js; simpl; repeat constructor; lia. }
  assert (H : Forall (λ p : N, ¬ (65 ≤ p ≤ 90)) (js "http://")).
  { unfold js; simpl; repeat constructor; lia. }
  unfold schemeRegexTest, startsWithScheme.
  rewrite orb_true_iff, (startsWithCI_prefix _ s Hs), (startsWithCI_prefix _ s H).
  split.
  - intros [(p & rest & E & Hp)|(p & rest & E & Hp)]; exists p, rest; auto.
  - intros (p & rest & E & [Hp|Hp]); [right|left]; exists p, rest; auto.
Qed.

(** ** normalizeUrl *)

(** C5. For a non-empty string whose trimmed form does not start with
    [http://] or [https://] in any case, [normalizeUrl] returns [https://]
    followed by the trimmed string; for a string whose trimmed form starts
    with one of them it returns the trimmed string; for the empty string it
    returns the empty string. *)
Theorem normalizeUrl_cases (raw : jsstring) :
  (raw ≠ [] → ¬ startsWithScheme (JS.trim raw) →
     normalizeUrl raw = js "https://" ++ JS.trim raw)
  ∧ (startsWithScheme (JS.trim raw) → normalizeUrl raw = JS.trim raw)
  ∧ normalizeUrl [] = [].
Proof.
  split; [|split]; [| |reflexivity].
  - intros Hraw Hno. unfold normalizeUrl.
    destruct raw as [|c r]; [congruence|]. simpl negb. cbv iota.
    destruct (schemeRegexTest (JS.trim (c :: r))) eqn:E; [|reflexivity].
    apply schemeRegexTest_spec in E. contradiction.
  - intros Hs. unfold normalizeUrl.
    destruct raw as [|c r].
    + destruct Hs as (p & rest & E & Hp).
      destruct p; [destruct Hp; discriminate|discriminate].
    + simpl negb. cbv iota. apply schemeRegexTest_spec in Hs. rewrite Hs.
      reflexivity.
Qed.

Lemma normalizeUrl_whiteSpaceOnly (s : jsstring) :
  s ≠ [] → whiteSpaceOnly s → normalizeUrl s = js "https://".
Proof.
  intros Hs Hw. unfold normalizeUrl. destruct s as [|c r]; [congruence|].
  simpl negb. cbv iota. rewrite (trim_whiteSpaceOnly _ Hw). reflexivity.
Qed.

(** ** db.js: one operation *)

Lemma openDB_opens (w : World) :
  opens w →
  ∃ w1, openDB w = (Fulfilled (), w1) ∧ objects w1 = objects w ∧ opens w1.
Proof.
  unfold opens, openDB. destruct (dbPromise w) as [p|] eqn:E; simpl.
  - intros ->. exists w. rewrite E. auto.
  - destruct (idbOpenOk w (openCalls w)); [|discriminate]. intros _.
    eexists. split; [reflexivity|]. simpl. auto.
Qed.

Lemma withStore_succeeds (callback : gmap Key Link → request) (w : World)
    (o : gmap Key Link) :
  opens w → callback (objects w) = ReqSucceeds o →
  (withStore callback w).1 = Fulfilled ()
  ∧ objects (withStore callback w).2 = o
  ∧ opens (withStore callback w).2.
Proof.
  intros Hw Hcb. destruct (openDB_opens w Hw) as (w1 & E & Ho & Hw1).
  unfold withStore. rewrite E, Ho, Hcb. simpl. repeat split.
  revert Hw1. unfold opens, openDB, setObjects. simpl.
  destruct (dbPromise w1); simpl; [auto|].
  destruct (idbOpenOk w1 (openCalls w1)); auto.
Qed.

Lemma withStore_fails (callback : gmap Key Link → request) (w : World) (e : exn) :
  opens w → callback (objects w) = ReqFails e →
  (withStore callback w).1 = Rejected NullReason
  ∧ objects (withStore callback w).2 = objects w.
Proof.
  intros Hw Hcb. destruct (openDB_opens w Hw) as (w1 & E & Ho & Hw1).
  unfold withStore. rewrite E, Ho, Hcb. simpl. auto.
Qed.

Lemma getAllLinks_opens (w : World) :
  opens w →
  (getAllLinks w).1 = Fulfilled (IDBObjectStore.getAll (objects w))
  ∧ objects (getAllLinks w).2 = objects w.
Proof.
  intros Hw. destruct (openDB_opens w Hw) as (w1 & E & Ho & Hw1).
  unfold getAllLinks. rewrite E, Ho. simpl. auto.
Qed.

Lemma getAll_insert_fresh (k : Key) (link : Link) (o : gmap Key Link) :
  o !! k = None →
  IDBObjectStore.getAll (<[k := link]> o) ≡ₚ link :: IDBObjectStore.getAll o.
Proof.
  intros H. unfold IDBObjectStore.getAll.
  rewrite (map_to_list_insert o k link H). reflexivity.
Qed.

(** C6 fails on the code in the error that is reported. When the store can
    be used and holds a record under the key of [link.id], the request of
    [addLink] fails for the violated uniqueness constraint and the store
    keeps its content, as the claim says, but the promise is rejected with
    [null] and not with that error: [tx.onerror] reads [tx.error] before the
    transaction is aborted. When the store holds no record there, [addLink]
    is fulfilled and [getAllLinks] afterwards returns the added record
    together with what was there before. *)
Theorem addLink_duplicate_or_fresh (link : Link) (k : Key) (w : World) :
  opens w → toKey (id link) = Some k →
  (is_Some (objects w !! k) →
     IDBObjectStore.add link (objects w) = ReqFails ConstraintError
     ∧ (addLink link w).1 = Rejected NullReason
     ∧ objects (addLink link w).2 = objects w)
  ∧ (objects w !! k = None →
     (addLink link w).1 = Fulfilled ()
     ∧ ∃ all, (getAllLinks (addLink link w).2).1 = Fulfilled all
         ∧ all ≡ₚ link :: IDBObjectStore.getAll (objects w)).
Proof.
  intros Hw Hk. unfold addLink. split.
  - intros [old Hold].
    assert (Hreq : IDBObjectStore.add link (objects w) = ReqFails ConstraintError).
    { unfold IDBObjectStore.add, IDBObjectStore.keyOf. rewrite Hk, Hold.
      reflexivity. }
    split; [exact Hreq|]. exact (withStore_fails _ w ConstraintError Hw Hreq).
  - intros Hnone.
    destruct (withStore_succeeds (IDBObjectStore.add link) w (<[k := link]> (objects w)) Hw)
      as (Hr & Ho & Hw1).
    { unfold IDBObjectStore.add, IDBObjectStore.keyOf. rewrite Hk, Hnone.
      reflexivity. }
    split; [exact Hr|].
    destruct (getAllLinks_opens _ Hw1) as [Hall _].
    eexists. split; [exact Hall|]. rewrite Ho.
    apply getAll_insert_fresh, Hnone.
Qed.

(** C7. When the store can be used, [updateLink] is fulfilled whether or not
    a record was stored under the key of [link.id], and the store then holds
    [link] there and what it held elsewhere; [deleteLink] is fulfilled
    whether or not a record was stored under the key, which holds nothing
    afterwards, and the store is unchanged when it held nothing there. *)
Theorem updateLink_upsert_deleteLink_idempotent (link : Link) (k : Key)
    (key : value) (kd : Key) (w : World) :
  opens w → toKey (id link) = Some k → toKey key = Some kd →
  ((updateLink link w).1 = Fulfilled ()
   ∧ objects (updateLink link w).2 = <[k := link]> (objects w)
   ∧ objects (updateLink link w).2 !! k = Some link
   ∧ ∀ k', k' ≠ k → objects (updateLink link w).2 !! k' = objects w !! k')
  ∧ ((deleteLink key w).1 = Fulfilled ()
     ∧ objects (deleteLink key w).2 = delete kd (objects w)
     ∧ objects (deleteLink key w).2 !! kd = None
     ∧ (∀ k', k' ≠ kd → objects (deleteLink key w).2 !! k' = objects w !! k')
     ∧ (objects w !! kd = None → objects (deleteLink key w).2 = objects w)).
Proof.
  intros Hw Hk Hkd. split.
  - destruct (withStore_succeeds (IDBObjectStore.put link) w (<[k := link]> (objects w)) Hw)
      as (Hr & Ho & _).
    { unfold IDBObjectStore.put, IDBObjectStore.keyOf. rewrite Hk. reflexivity. }
    unfold updateLink. rewrite Ho. split; [exact Hr|]. split; [reflexivity|].
    split; [apply lookup_insert_eq|].
    intros k' Hne. apply lookup_insert_ne. congruence.
  - destruct (withStore_succeeds (IDBObjectStore.delete key) w (delete kd (objects w)) Hw)
      as (Hr & Ho & _).
    { unfold IDBObjectStore.delete. rewrite Hkd. reflexivity. }
    unfold deleteLink. rewrite Ho. split; [exact Hr|]. split; [reflexivity|].
    split; [apply lookup_delete_eq|]. split.
    + intros k' Hne. apply lookup_delete_ne. congruence.
    + intros Hnone. apply delete_id. exact Hnone.
Qed.

Lemma addLink_duplicate_or_fresh_witness :
  opens worldX ∧ toKey (id linkX) = Some keyX
  ∧ IDBObjectStore.add linkX (objects worldX) = ReqFails ConstraintError
  ∧ (addLink linkX worldX).1 = Rejected NullReason
  ∧ objects (addLink linkX worldX).2 = objects worldX.
Proof.
  split; [reflexivity|]. split; [reflexivity|].
  apply (addLink_duplicate_or_fresh linkX keyX worldX); [reflexivity..|].
  exists linkX. apply lookup_singleton_eq.
Defined.

Lemma updateLink_upsert_deleteLink_idempotent_witness :
  (updateLink linkY worldX).1 = Fulfilled ()
  ∧ objects (updateLink linkY worldX).2 !! keyY = Some linkY
  ∧ (deleteLink (id linkY) worldX).1 = Fulfilled ()
  ∧ objects (deleteLink (id linkY) worldX).2 = objects worldX.
Proof.
  destruct (updateLink_upsert_deleteLink_idempotent linkY keyY (id linkY) keyY worldX)
    as [(Hu & _ & Hl & _) (Hd & _ & _ & _ & Hsame)]; [reflexivity..|].
  split; [exact Hu|]. split; [exact Hl|]. split; [exact Hd|].
  apply Hsame. apply lookup_singleton_ne. discriminate.
Defined.

Example addLink_fresh_example :
  (addLink linkY worldX).1 = Fulfilled ()
  ∧ objects (addLink linkY worldX).2 = <[keyY := linkY]> {[ keyX := linkX ]}.
Proof.
  unfold addLink, withStore. simpl.
  unfold IDBObjectStore.add, IDBObjectStore.keyOf. simpl.
  rewrite lookup_singleton_ne by discriminate. split; reflexivity.
Qed.

(** ** parseTags *)

Section ParseTagsProperties.

Variable toLowerCase : jsstring → jsstring.

Lemma parseTags_elem_of (input t : jsstring) :
  t ∈ parseTags toLowerCase input
  ↔ ∃ piece, piece ∈ JS.split 44 input ∧ JS.trim piece ≠ []
      ∧ t = toLowerCase (JS.trim piece).
Proof.
  unfold parseTags. rewrite list_elem_of_fmap. split.
  - intros (s & -> & Hs). apply list_elem_of_filter in Hs as [Hne Hs].
    apply list_elem_of_fmap in Hs as (piece & -> & Hpiece).
    exists piece. split; [exact Hpiece|]. split; [|reflexivity].
    intros E. rewrite E in Hne. exact Hne.
  - intros (piece & Hpiece & Hne & ->). exists (JS.trim piece).
    split; [reflexivity|]. apply list_elem_of_filter. split.
    + destruct (JS.trim piece); [congruence | exact I].
    + apply list_elem_of_fmap. exists piece. auto.
Qed.

End ParseTagsProperties.

Lemma asciiToLowerCase_lowerCasing : lowerCasing asciiToLowerCase.
Proof.
  split; [|reflexivity]. intros [|c s] H; [congruence|discriminate].
Qed.

(** C3, as stated, fails: the entries of
    [parseTags("Design, , Marketing ,design")] are not free of duplicates,
    [design] is there twice. *)
Lemma parseTags_keeps_duplicates :
  parseTags asciiToLowerCase (js "Design, , Marketing ,design")
  = [js "design"; js "marketing"; js "design"]
  ∧ ¬ NoDup (parseTags asciiToLowerCase (js "Design, , Marketing ,design")).
Proof.
  split; [reflexivity|].
  change (parseTags asciiToLowerCase (js "Design, , Marketing ,design"))
    with [js "design"; js "marketing"; js "design"].
  intros H. apply NoDup_cons in H as [H _]. apply H. set_solver.
Qed.

(** ** The url of the records the handlers store *)

(** Of a non-empty string, [normalizeUrl] makes a non-empty string that
    starts with a scheme. *)
Lemma normalizeUrl_scheme (raw : jsstring) :
  raw ≠ [] → normalizeUrl raw ≠ [] ∧ startsWithScheme (normalizeUrl raw).
Proof.
  intros Hraw. unfold normalizeUrl. destruct raw as [|c r]; [congruence|].
  simpl negb. cbv iota.
  destruct (schemeRegexTest (JS.trim (c :: r))) eqn:E.
  - apply schemeRegexTest_spec in E. split; [|exact E].
    destruct E as (p & rest & -> & Hp).
    destruct p; [destruct Hp; discriminate | discriminate].
  - split; [discriminate|]. exists (js "https://"), (JS.trim (c :: r)).
    split; [reflexivity|]. right. reflexivity.
Qed.

Section Handlers.

Variable toLowerCase : jsstring → jsstring.

(** [handleAdd] refuses a blank url field and writes nothing. *)
Lemma handleAdd_blank_url (form : Form) (uuid : jsstring) (now : Qc) (w : World) :
  JS.trim (form_url form) = [] →
  handleAdd toLowerCase form uuid now w = (js "Please enter a URL.", w).
Proof. intros H. unfold handleAdd. rewrite H. reflexivity. Qed.

(** What [handleAdd] hands to [addLink] has a url with a scheme. *)
Lemma handleAdd_url_scheme (form : Form) (uuid : jsstring) (now : Qc) :
  JS.trim (form_url form) ≠ [] →
  url (newLink toLowerCase form uuid now) ≠ []
  ∧ startsWithScheme (url (newLink toLowerCase form uuid now)).
Proof.
  intros H. simpl. apply normalizeUrl_scheme. intros E. rewrite E in H.
  apply H. reflexivity.
Qed.

(** [saveEdit] writes the record it builds, whatever the url field holds. *)
Lemma saveEdit_stores (link : Link) (editForm : Form) (now : Qc) (k : Key) (w : World) :
  opens w → toKey (id link) = Some k →
  (saveEdit toLowerCase link editForm now w).1 = None
  ∧ objects (saveEdit toLowerCase link editForm now w).2
    = <[k := updatedLink toLowerCase link editForm now]> (objects w).
Proof.
  intros Hw Hk.
  destruct (withStore_succeeds
              (IDBObjectStore.put (updatedLink toLowerCase link editForm now)) w
              (<[k := updatedLink toLowerCase link editForm now]> (objects w)) Hw)
    as (Hr & Ho & _).
  { unfold IDBObjectStore.put, IDBObjectStore.keyOf. simpl. rewrite Hk.
    reflexivity. }
  unfold saveEdit, updateLink in *.
  destruct (withStore _ w) as [r w1]. simpl in *. subst r. auto.
Qed.

(** C10. Of a non-empty string of white space only, [normalizeUrl] makes
    [https://]; and [saveEdit], which does not look at whether the url field
    is blank, stores for such a field a record whose url is [https://]. *)
Theorem saveEdit_whiteSpace_url (link : Link) (editForm : Form) (now : Qc)
    (k : Key) (w : World) :
  form_url editForm ≠ [] → whiteSpaceOnly (form_url editForm) →
  opens w → toKey (id link) = Some k →
  normalizeUrl (form_url editForm) = js "https://"
  ∧ (saveEdit toLowerCase link editForm now w).1 = None
  ∧ ∃ stored,
      objects (saveEdit toLowerCase link editForm now w).2 !! k = Some stored
      ∧ stored = updatedLink toLowerCase link editForm now
      ∧ url stored = js "https://".
Proof.
  intros Hne Hws Hw Hk.
  pose proof (normalizeUrl_whiteSpaceOnly _ Hne Hws) as Hurl.
  destruct (saveEdit_stores link editForm now k w Hw Hk) as [Hr Ho].
  split; [exact Hurl|]. split; [exact Hr|].
  eexists. rewrite Ho, lookup_insert_eq. split; [reflexivity|].
  split; [reflexivity|]. exact Hurl.
Qed.

End Handlers.

Lemma saveEdit_whiteSpace_url_witness :
  ∃ stored,
    objects (saveEdit asciiToLowerCase linkX
               {| form_url := js "  "; form_title := js "X";
                  form_note := []; form_tags := js "design" |}
               (ms 3000) worldX).2 !! keyX = Some stored
    ∧ url stored = js "https://".
Proof.
  destruct (saveEdit_whiteSpace_url asciiToLowerCase linkX
              {| form_url := js "  "; form_title := js "X";
                 form_note := []; form_tags := js "design" |}
              (ms 3000) keyX worldX) as (_ & _ & stored & Hs & _ & Hu).
  - discriminate.
  - unfold js; simpl; repeat constructor.
  - reflexivity.
  - reflexivity.
  - exists stored. split; [exact Hs | exact Hu].
Defined.

(** C4 fails for [saveEdit]: with an empty url field it stores a record
    whose url is empty, where [handleAdd] refuses the empty field. *)
Theorem saveEdit_empty_url_stored :
  ∃ stored,
    (saveEdit asciiToLowerCase linkX
       {| form_url := []; form_title := js "X"; form_note := [];
          form_tags := js "design" |} (ms 3000) worldX).1 = None
    ∧ objects (saveEdit asciiToLowerCase linkX
                 {| form_url := []; form_title := js "X"; form_note := [];
                    form_tags := js "design" |} (ms 3000) worldX).2 !! keyX
      = Some stored
    ∧ url stored = []
    ∧ handleAdd asciiToLowerCase
        {| form_url := []; form_title := js "X"; form_note := [];
           form_tags := js "design" |} (js "id-z") (ms 3000) worldX
      = (js "Please enter a URL.", worldX).
Proof.
  eexists.
  destruct (saveEdit_stores asciiToLowerCase linkX
              {| form_url := []; form_title := js "X"; form_note := [];
                 form_tags := js "design" |} (ms 3000) keyX worldX)
    as [Hr Ho]; [reflexivity..|].
  rewrite Hr, Ho, lookup_insert_eq.
  split; [reflexivity|]. split; [reflexivity|]. split; reflexivity.
Qed.

(** ** db.js: the memoised connection *)

Lemma openDB_memo (p : settlement ()) (w : World) :
  dbPromise w = Some p → openDB w = (p, w).
Proof. intros H. unfold openDB. rewrite H. reflexivity. Qed.

(** Once [dbPromise] is set, an operation leaves it, and the count of
    [indexedDB.open] calls, as they are; when the promise is rejected the
    operation is rejected with the same error and writes nothing. *)
Lemma runOp_memo (p : settlement ()) (op : operation) (w : World) :
  dbPromise w = Some p →
  dbPromise (runOp op w).2 = Some p
  ∧ openCalls (runOp op w).2 = openCalls w
  ∧ (∀ e, p = Rejected e →
       (runOp op w).1 = Rejected e ∧ objects (runOp op w).2 = objects w).
Proof.
  intros H.
  destruct op as [|link|link|key]; simpl;
    unfold getAllLinks, addLink, updateLink, deleteLink, withStore;
    rewrite (openDB_memo p w H); destruct p as [[]|e0]; simpl;
    repeat match goal with
           | |- context [match ?r with ReqThrows _ => _ | _ => _ end] =>
               destruct r; simpl
           end;
    (split; [exact H|]); (split; [reflexivity|]); intros err He;
    try discriminate; injection He as ->; auto.
Qed.

(** The first operation of the process calls [indexedDB.open] once and
    memoises the promise. *)
Lemma runOp_first (op : operation) (w : World) :
  dbPromise w = None →
  dbPromise (runOp op w).2
  = Some (if idbOpenOk w (openCalls w) then Fulfilled ()
          else Rejected (OpenError (openCalls w)))
  ∧ openCalls (runOp op w).2 = S (openCalls w)
  ∧ (idbOpenOk w (openCalls w) = false →
       (runOp op w).1 = Rejected (OpenError (openCalls w))
       ∧ objects (runOp op w).2 = objects w).
Proof.
  intros H.
  destruct op as [|link|link|key]; simpl;
    unfold getAllLinks, addLink, updateLink, deleteLink, withStore, openDB;
    rewrite H; destruct (idbOpenOk w (openCalls w)); simpl;
    repeat match goal with
           | |- context [match ?r with ReqThrows _ => _ | _ => _ end] =>
               destruct r; simpl
           end;
    (split; [reflexivity|]); (split; [reflexivity|]); intros He;
    try discriminate; auto.
Qed.

Lemma runOps_memo (p : settlement ()) (ops : list operation) (w : World) :
  dbPromise w = Some p →
  dbPromise (runOps ops w).2 = Some p
  ∧ openCalls (runOps ops w).2 = openCalls w
  ∧ (∀ e, p = Rejected e →
       Forall (λ r, r = Rejected e) (runOps ops w).1
       ∧ objects (runOps ops w).2 = objects w).
Proof.
  revert w. induction ops as [|op ops IH]; intros w H; simpl.
  - split; [exact H|]. split; [reflexivity|]. intros e _. split; constructor.
  - destruct (runOp_memo p op w H) as (Hp & Hc & Hr).
    destruct (runOp op w) as [r w1]. simpl in *.
    destruct (IH w1 Hp) as (Hp' & Hc' & Hr').
    destruct (runOps ops w1) as [rs w2]. simpl in *.
    split; [exact Hp'|]. split; [congruence|]. intros e He.
    destruct (Hr e He) as [-> Ho]. destruct (Hr' e He) as [Hrs Ho'].
    split; [constructor; [reflexivity | exact Hrs] | congruence].
Qed.

(** C9. Whatever operations a process runs, [indexedDB.open] is called at
    most once; after the first operation [dbPromise] is the promise made
    then, for ever; and when that first call fails, every operation is
    rejected with its error and nothing is written, even where a later call
    of [indexedDB.open] would have succeeded. *)
Theorem openDB_at_most_once (browser : nat → bool) (stored : gmap Key Link)
    (ops : list operation) :
  (openCalls (runOps ops (startWorld browser stored)).2 ≤ 1)%nat
  ∧ (ops ≠ [] →
       openCalls (runOps ops (startWorld browser stored)).2 = 1%nat
       ∧ dbPromise (runOps ops (startWorld browser stored)).2
         = Some (if browser 0%nat then Fulfilled () else Rejected (OpenError 0)))
  ∧ (browser 0%nat = false →
       Forall (λ r, r = Rejected (OpenError 0))
         (runOps ops (startWorld browser stored)).1
       ∧ objects (runOps ops (startWorld browser stored)).2 = stored).
Proof.
  destruct ops as [|op ops].
  - simpl. split; [lia|]. split; [congruence|]. intros _. split; constructor.
  - simpl.
    destruct (runOp_first op (startWorld browser stored) eq_refl) as (Hp & Hc & Hr).
    destruct (runOp op (startWorld browser stored)) as [r w1]. simpl in *.
    destruct (runOps_memo _ ops w1 Hp) as (Hp' & Hc' & Hr').
    destruct (runOps ops w1) as [rs w2]. simpl in *.
    split; [lia|]. split.
    + intros _. split; [congruence | exact Hp'].
    + intros Hb. rewrite Hb in Hr'. destruct (Hr Hb) as [-> Ho].
      destruct (Hr' _ eq_refl) as [Hrs Ho'].
      split; [constructor; [reflexivity | exact Hrs] | congruence].
Qed.

Example openDB_never_retried :
  runOps [OpGetAll; OpAdd linkY; OpGetAll]
    (startWorld (λ n, negb (n =? 0)%nat) {[ keyX := linkX ]})
  = ([Rejected (OpenError 0); Rejected (OpenError 0); Rejected (OpenError 0)],
     {| dbPromise := Some (Rejected (OpenError 0)); openCalls := 1;
        idbOpenOk := λ n, negb (n =? 0)%nat;
        objects := {[ keyX := linkX ]} |}).
Proof. reflexivity. Qed.

(** ** normalizeImportedLinks *)

Section ImportedRecords.

Variable toLowerCase : jsstring → jsstring.
Variable numberToString : number → jsstring.

Lemma toString_plainText (v : value) (fallback : jsstring) :
  plainText v = true →
  ∃ s, Value.toString numberToString
         (if Value.truthy v then v else VString fallback) = Return s.
Proof.
  destruct v; try discriminate; intros _; simpl.
  - eexists; reflexivity.
  - destruct (JS.truthy_string s); eexists; reflexivity.
Qed.

Lemma importedTags_plain (ts : list value) :
  forallb Value.isString ts = true →
  ∃ l, importedTags toLowerCase numberToString ts = Return l.
Proof.
  induction ts as [|t ts IH]; simpl; [eexists; reflexivity|].
  intros H. apply andb_true_iff in H as [Ht Hts].
  destruct t; try discriminate. destruct (IH Hts) as [l ->].
  eexists; reflexivity.
Qed.

(** A goal about a timestamp of the record, by the cases of the supplied
    value. *)
Ltac by_timestamp :=
  match goal with
  | |- context [Value.get (js ?name) ?item] =>
      destruct (Value.get (js name) item) as [| | |[]| | |];
      try discriminate; reflexivity
  end.

(** C8, as the code has it. The record made of a survivor keeps the
    supplied id exactly when that id is truthy, a non-empty string or
    not, and has the generated one otherwise; its [createdAt] and
    [updatedAt] are the supplied values exactly when those are finite
    numbers, and the current time otherwise. A record is made whenever
    title, note and tags have the shape the export writes. *)
Theorem importedLink_identity (item : value) (raw uuid : jsstring) (now : Qc) :
  (∀ l, importedLink toLowerCase numberToString item raw uuid now = Return l →
     (Value.truthy (Value.get (js "id") item) = true →
        id l = Value.get (js "id") item)
     ∧ (Value.truthy (Value.get (js "id") item) = false → id l = VString uuid)
     ∧ (uuid ≠ [] →
        id l = Value.get (js "id") item
        ↔ Value.truthy (Value.get (js "id") item) = true)
     ∧ (VNumber (createdAt l) = Value.get (js "createdAt") item
        ↔ Value.isFinite (Value.get (js "createdAt") item) = true)
     ∧ (Value.isFinite (Value.get (js "createdAt") item) = false →
        createdAt l = Finite now)
     ∧ (VNumber (updatedAt l) = Value.get (js "updatedAt") item
        ↔ Value.isFinite (Value.get (js "updatedAt") item) = true)
     ∧ (Value.isFinite (Value.get (js "updatedAt") item) = false →
        updatedAt l = Finite now))
  ∧ (plainItem item = true →
     ∃ l, importedLink toLowerCase numberToString item raw uuid now = Return l).
Proof.
  split.
  - intros l. unfold importedLink, mbind, completion_bind.
    destruct (Value.toString numberToString
                (if Value.truthy (Value.get (js "title") item) then _ else _));
      [|discriminate].
    destruct (Value.toString numberToString
                (if Value.truthy (Value.get (js "note") item) then _ else _));
      [|discriminate].
    destruct (match Value.get (js "tags") item with VArray _ => _ | _ => _ end);
      [|discriminate].
    intros [= <-]. simpl.
    destruct (Value.truthy (Value.get (js "id") item)) eqn:Eid;
      repeat split; try discriminate; try tauto; try by_timestamp.
    intros E. rewrite <- E in Eid. simpl in Eid.
    destruct uuid; [congruence | discriminate].
  - unfold plainItem. rewrite !andb_true_iff. intros [[Ht Hn] Hg].
    unfold importedLink, mbind, completion_bind.
    destruct (toString_plainText _ (normalizeUrl raw) Ht) as [t ->].
    destruct (toString_plainText _ [] Hn) as [n ->].
    destruct (Value.get (js "tags") item) as [| | | | |ts|]; try discriminate;
      try (eexists; reflexivity).
    destruct (importedTags_plain ts Hg) as [l ->]. eexists; reflexivity.
Qed.

End ImportedRecords.

(** C8, as stated, fails: the candidate [item42] has the number 42 as its
    id, which is not a string, and the record made of it keeps that id. *)
Lemma importedLink_keeps_number_id :
  Value.isString (Value.get (js "id") item42) = false
  ∧ ∃ l, id l = Value.get (js "id") item42
      ∧ ∀ toLowerCase numberToString,
          importedLink toLowerCase numberToString item42 (js "https://x.com")
            (js "fresh-uuid") (ms 5) = Return l.
Proof.
  split; [reflexivity|]. eexists. split; [|intros; reflexivity]. reflexivity.
Qed.

(** ** importLinks and the batch write *)

(** C1 fails on the code: App.jsx imports [putLinks] from db.js, which
    exports no batch operation, under that name or as [putMany]; the binding
    is undefined. *)
Theorem putLinks_not_exported :
  ("putLinks"%string ∈ App_imports)
  ∧ ("putLinks"%string ∉ db_exports)
  ∧ ("putMany"%string ∉ db_exports)
  ∧ putLinks = None.
Proof.
  split; [|split; [|split; [|reflexivity]]];
    apply (bool_decide_unpack _); vm_compute; exact I.
Qed.

(** C2 fails on the code: [importLinks] never writes to the store and never
    reports a count, since the call of [putLinks] throws and the handler
    catches; with [linkX] in memory and the file [fileXY] it reports that the
    file could not be imported. *)
Theorem importLinks_never_persists (toLowerCase : jsstring → jsstring)
    (numberToString : number → jsstring) (file : option (completion value))
    (links : list Link) (uuids : nat → jsstring) (clock : nat → Qc) (w : World) :
  (importLinks toLowerCase numberToString file links uuids clock w).2 = w
  ∧ (∀ n, (importLinks toLowerCase numberToString file links uuids clock w).1
          ≠ Some (Imported n))
  ∧ importLinks toLowerCase numberToString (Some (Return fileXY)) [linkX]
      uuids clock worldX
    = (Some CouldNotImport, worldX).
Proof.
  split; [|split].
  - unfold importLinks, importLinksWith, putLinks.
    repeat case_match; reflexivity.
  - intros n. unfold importLinks, importLinksWith, putLinks.
    repeat case_match; simpl; congruence.
  - reflexivity.
Qed.

(** ** What the import would do with the batch write of the specification *)

(** A rejected [putMany] has written nothing. *)
Lemma putMany_atomic (links : list Link) (w : World) (e : exn) :
  (putMany links w).1 = Rejected e → objects (putMany links w).2 = objects w.
Proof.
  unfold putMany, withStore, openDB.
  destruct (dbPromise w) as [[[]|e0]|]; simpl;
    [| reflexivity | destruct (idbOpenOk w (openCalls w)); simpl; [|reflexivity]];
    destruct (putAll links (objects w)); simpl; (reflexivity || discriminate).
Qed.

(** With [putMany] for [putLinks], the import of [fileXY] next to [linkX]
    writes [linkY] only and reports one link. *)
Lemma importLinksWith_putMany_fileXY (toLowerCase : jsstring → jsstring)
    (numberToString : number → jsstring) (uuids : nat → jsstring)
    (clock : nat → Qc) :
  (importLinksWith toLowerCase numberToString (Some putMany)
     (Some (Return fileXY)) [linkX] uuids clock worldX).1 = Some (Imported 1)
  ∧ objects (importLinksWith toLowerCase numberToString (Some putMany)
               (Some (Return fileXY)) [linkX] uuids clock worldX).2
    = <[keyY := linkY]> {[ keyX := linkX ]}.
Proof. split; reflexivity. Qed.

(** With [putMany] for [putLinks], a record of the file for a new url that
    carries the id of a stored record replaces that record: the merge looks
    at urls, the upsert at ids. *)
Lemma importLinksWith_putMany_same_id (toLowerCase : jsstring → jsstring)
    (numberToString : number → jsstring) (uuids : nat → jsstring)
    (clock : nat → Qc) :
  ∃ stored,
    objects (importLinksWith toLowerCase numberToString (Some putMany)
               (Some (Return (VArray
                  [VObject [ (js "id", VString (js "id-x"));
                             (js "url", VString (js "https://y.com")) ]])))
               [linkX] uuids clock worldX).2 !! keyX = Some stored
    ∧ url stored = js "https://y.com".
Proof. eexists. split; reflexivity. Qed.

(** Of a candidate whose url is the empty string, [normalizeImportedLinks]
    makes a record whose url is empty; [importLinks] hands it to
    [putLinks]. *)
Lemma normalizeImportedLinks_empty_url (toLowerCase : jsstring → jsstring)
    (numberToString : number → jsstring) (uuids : nat → jsstring)
    (clock : nat → Qc) :
  ∃ l, normalizeImportedLinks toLowerCase numberToString
         (VArray [VObject [ (js "url", VString []) ]]) uuids clock = Return [l]
       ∧ url l = [] ∧ id l = VString (uuids 0%nat).
Proof. eexists. split; [reflexivity|]. split; reflexivity. Qed.

(** ** trim *)

Lemma trimStart_decompose (s : jsstring) :
  ∃ a, s = a ++ JS.trimStart s ∧ whiteSpaceOnly a
       ∧ (∀ c r, JS.trimStart s = c :: r → JS.isWhiteSpace c = false).
Proof.
  induction s as [|c s (a & E & Ha & Hhd)]; simpl.
  - exists []. repeat split; [constructor | discriminate].
  - destruct (JS.isWhiteSpace c) eqn:Hc.
    + exists (c :: a). split; [simpl; congruence|].
      split; [constructor; assumption | exact Hhd].
    + exists []. split; [reflexivity|]. split; [constructor|].
      intros c' r [= <- _]. exact Hc.
Qed.

(** [trim] takes white space, and nothing else, from the two ends. *)
Lemma trim_decompose (s : jsstring) :
  ∃ a b, s = a ++ JS.trim s ++ b ∧ whiteSpaceOnly a ∧ whiteSpaceOnly b
         ∧ (∀ c r, JS.trim s = c :: r → JS.isWhiteSpace c = false)
         ∧ (∀ c r, JS.trim s = r ++ [c] → JS.isWhiteSpace c = false).
Proof.
  destruct (trimStart_decompose s) as (a & Ea & Ha & Hhd).
  destruct (trimStart_decompose (rev (JS.trimStart s))) as (b & Eb & Hb & Hlast).
  unfold JS.trim, JS.trimEnd.
  set (t := JS.trimStart (rev (JS.trimStart s))) in *.
  assert (Es : JS.trimStart s = rev t ++ rev b).
  { rewrite <- rev_app_distr, <- Eb, rev_involutive. reflexivity. }
  exists a, (rev b). split; [rewrite <- Es; exact Ea|].
  split; [exact Ha|]. split; [apply Forall_rev, Hb|]. split.
  - intros c r Hc. destruct t as [|d t'] eqn:Et.
    + discriminate.
    + apply (Hhd c (r ++ rev b)). rewrite Es, Hc. reflexivity.
  - intros c r Hc. apply (Hlast c (rev r)).
    rewrite <- (rev_involutive t), Hc, rev_app_distr. reflexivity.
Qed.

(** * Further properties *)

(** ** normalizeUrl: normal forms *)

Lemma trimStart_fixed (s : jsstring) :
  (∀ c r, s = c :: r → JS.isWhiteSpace c = false) → JS.trimStart s = s.
Proof.
  destruct s as [|c r]; [reflexivity|]. intros H. simpl.
  rewrite (H c r eq_refl). reflexivity.
Qed.

Lemma trim_fixed (s : jsstring) :
  (∀ c r, s = c :: r → JS.isWhiteSpace c = false) →
  (∀ c r, s = r ++ [c] → JS.isWhiteSpace c = false) →
  JS.trim s = s.
Proof.
  intros Hhd Hlast. unfold JS.trim, JS.trimEnd.
  rewrite (trimStart_fixed s Hhd), trimStart_fixed; [apply rev_involutive|].
  intros c r E. apply (Hlast c (rev r)).
  rewrite <- (rev_involutive s), E. reflexivity.
Qed.

Lemma trim_idempotent (s : jsstring) : JS.trim (JS.trim s) = JS.trim s.
Proof.
  destruct (trim_decompose s) as (a & b & _ & _ & _ & Hhd & Hlast).
  apply trim_fixed; assumption.
Qed.

Lemma normalizeUrl_trimmed (raw : jsstring) :
  JS.trim (normalizeUrl raw) = normalizeUrl raw.
Proof.
  unfold normalizeUrl. destruct raw as [|c0 r0]; [reflexivity|].
  simpl negb. cbv iota.
  destruct (schemeRegexTest (JS.trim (c0 :: r0))); [apply trim_idempotent|].
  destruct (trim_decompose (c0 :: r0)) as (a & b & _ & _ & _ & _ & Hlast).
  apply trim_fixed.
  - intros c r [= <- _]. reflexivity.
  - intros c r E.
    destruct (JS.trim (c0 :: r0)) as [|d t] eqn:Et using rev_ind.
    + rewrite app_nil_r in E.
      change (js "https://") with (js "https:/" ++ [47]) in E.
      apply app_inj_tail in E as [_ <-]. reflexivity.
    + rewrite app_assoc in E. apply app_inj_tail in E as [_ <-].
      apply (Hlast d t eq_refl).
Qed.

Lemma normalizeUrl_fixed (u : jsstring) :
  JS.trim u = u → startsWithScheme u → normalizeUrl u = u.
Proof.
  intros Ht Hs. unfold normalizeUrl. destruct u as [|c r].
  - reflexivity.
  - simpl negb. cbv iota. rewrite Ht.
    apply schemeRegexTest_spec in Hs. rewrite Hs. reflexivity.
Qed.

Lemma normalizeUrl_twice (raw : jsstring) :
  normalizeUrl (normalizeUrl raw) = normalizeUrl raw.
Proof.
  destruct raw as [|c r]; [reflexivity|].
  apply normalizeUrl_fixed; [apply normalizeUrl_trimmed|].
  apply normalizeUrl_scheme. discriminate.
Qed.

(** X1. [normalizeUrl] is idempotent; what it returns has no white space
    at either end; and the strings it leaves as they are are the empty
    string and the strings without white space at the ends that start with
    [http://] or [https://]. *)
Theorem normalizeUrl_idempotent (raw : jsstring) :
  normalizeUrl (normalizeUrl raw) = normalizeUrl raw
  ∧ JS.trim (normalizeUrl raw) = normalizeUrl raw
  ∧ (normalizeUrl raw = raw
     ↔ raw = [] ∨ (JS.trim raw = raw ∧ startsWithScheme raw)).
Proof.
  split; [apply normalizeUrl_twice|]. split; [apply normalizeUrl_trimmed|].
  split.
  - intros E. destruct raw as [|c r]; [left; reflexivity|]. right.
    rewrite <- E. split; [apply normalizeUrl_trimmed|].
    apply normalizeUrl_scheme. discriminate.
  - intros [-> | [Ht Hs]]; [reflexivity|]. apply normalizeUrl_fixed; assumption.
Qed.

(** ** parseTags: commas and the editor's join *)

Lemma split_not_nil (sep : N) (s : jsstring) : JS.split sep s ≠ [].
Proof.
  destruct s as [|c r]; simpl; [discriminate|].
  destruct (c =? sep); [discriminate|]. destruct (JS.split sep r); discriminate.
Qed.

Lemma split_app (sep : N) (a b : jsstring) :
  JS.split sep (a ++ sep :: b) = JS.split sep a ++ JS.split sep b.
Proof.
  induction a as [|c a IH]; simpl.
  - rewrite N.eqb_refl. reflexivity.
  - rewrite IH. destruct (c =? sep); [reflexivity|].
    pose proof (split_not_nil sep a) as Hne.
    destruct (JS.split sep a); [congruence | reflexivity].
Qed.

Lemma split_no_sep (sep : N) (s : jsstring) : sep ∉ s → JS.split sep s = [s].
Proof.
  induction s as [|c s IH]; intros H; simpl; [reflexivity|].
  apply not_elem_of_cons in H as [Hc Hs].
  destruct (N.eqb_spec c sep) as [->|_]; [congruence|].
  rewrite (IH Hs). reflexivity.
Qed.

Lemma split_pieces (sep : N) (s piece : jsstring) :
  piece ∈ JS.split sep s → sep ∉ piece.
Proof.
  revert piece. induction s as [|c s IH]; intros piece; simpl.
  - intros ->%list_elem_of_singleton. apply not_elem_of_nil.
  - destruct (N.eqb_spec c sep) as [->|Hc].
    + intros [->|H]%elem_of_cons; [apply not_elem_of_nil | apply IH, H].
    + pose proof (split_not_nil sep s) as Hne.
      destruct (JS.split sep s) as [|q qs]; [congruence|].
      intros [->|H]%elem_of_cons.
      * apply not_elem_of_cons. split; [congruence|]. apply IH. left.
      * apply IH. right. exact H.
Qed.

Lemma trim_elem_of (c : N) (s : jsstring) : c ∈ JS.trim s → c ∈ s.
Proof.
  destruct (trim_decompose s) as (a & b & E & _). intros H.
  rewrite E, !elem_of_app. auto.
Qed.

Section ParseTagsMore.

Variable toLowerCase : jsstring → jsstring.

Lemma parseTags_app (a b : jsstring) :
  parseTags toLowerCase (a ++ 44 :: b)
  = parseTags toLowerCase a ++ parseTags toLowerCase b.
Proof.
  unfold parseTags. rewrite split_app, fmap_app, filter_app, fmap_app.
  reflexivity.
Qed.

Lemma parseTags_no_comma (input : jsstring) :
  44 ∉ input →
  parseTags toLowerCase input
  = if JS.truthy_string (JS.trim input) then [toLowerCase (JS.trim input)] else [].
Proof.
  intros H. unfold parseTags. rewrite (split_no_sep 44 input H). simpl.
  destruct (JS.trim input); reflexivity.
Qed.

Lemma parseTags_leading_space (input : jsstring) :
  parseTags toLowerCase (32 :: input) = parseTags toLowerCase input.
Proof.
  unfold parseTags. simpl JS.split.
  pose proof (split_not_nil 44 input) as Hne.
  destruct (JS.split 44 input) as [|p ps]; [congruence|].
  rewrite !fmap_cons. reflexivity.
Qed.

Lemma parseTags_normalTag (t : jsstring) :
  normalTag toLowerCase t → parseTags toLowerCase t = [t].
Proof.
  intros (Hne & Ht & Hc & Hl). rewrite (parseTags_no_comma t Hc), Ht, Hl.
  destruct t; [congruence | reflexivity].
Qed.

(** X2. [parseTags] reads the two sides of a comma one after the other;
    of an input without a comma it makes no tag when the input is blank and
    one tag, the lower-cased trimmed input, otherwise. *)
Theorem parseTags_comma (a b : jsstring) :
  parseTags toLowerCase (a ++ js "," ++ b)
  = parseTags toLowerCase a ++ parseTags toLowerCase b
  ∧ (44 ∉ a →
     parseTags toLowerCase a
     = if JS.truthy_string (JS.trim a) then [toLowerCase (JS.trim a)] else []).
Proof.
  split; [apply parseTags_app | apply parseTags_no_comma].
Qed.

Lemma parseTags_join (ts : list jsstring) :
  Forall (normalTag toLowerCase) ts →
  parseTags toLowerCase (join (js ", ") ts) = ts.
Proof.
  induction 1 as [|t ts Ht Hts IH]; [reflexivity|].
  destruct ts as [|t' ts'].
  - simpl. apply parseTags_normalTag, Ht.
  - change (join (js ", ") (t :: t' :: ts'))
      with (t ++ 44 :: 32 :: join (js ", ") (t' :: ts')).
    rewrite parseTags_app, parseTags_leading_space, IH.
    rewrite (parseTags_normalTag t Ht). reflexivity.
Qed.

(** Under [tagCasing], what [parseTags] returns are normal tags. *)
Lemma parseTags_normal (input : jsstring) :
  tagCasing toLowerCase →
  Forall (normalTag toLowerCase) (parseTags toLowerCase input).
Proof.
  intros Hcase. apply Forall_forall. intros t Ht.
  apply parseTags_elem_of in Ht as (piece & Hpiece & Hne & ->).
  apply Hcase; [exact Hne | apply trim_idempotent |].
  intros Hc. apply trim_elem_of in Hc. exact (split_pieces 44 _ _ Hpiece Hc).
Qed.

(** X3. Joining normal tags with a comma and a space, as the editor
    does, and parsing the text gives the tags back, in their order. *)
Theorem parseTags_join_round_trip (ts : list jsstring) :
  Forall (normalTag toLowerCase) ts →
  parseTags toLowerCase (join (js ", ") ts) = ts.
Proof. intros H. induction H as [|t ts Ht Hts IH]; [reflexivity|].
  destruct ts as [|t' ts'].
  - simpl. apply parseTags_normalTag, Ht.
  - change (join (js ", ") (t :: t' :: ts'))
      with (t ++ 44 :: 32 :: join (js ", ") (t' :: ts')).
    rewrite parseTags_app, parseTags_leading_space, IH.
    rewrite (parseTags_normalTag t Ht). reflexivity.
Qed.

(** X4. Opening the editor on a normal record and saving it unchanged
    writes the same record with the new [updatedAt]: url, title, note and
    tags survive the trip through the form. *)
Theorem saveEdit_unchanged (link : Link) (now : Qc) :
  normalLink toLowerCase link →
  updatedLink toLowerCase link (startEdit link) now
  = {| id := id link; url := url link; title := title link;
       note := note link; tags := tags link;
       createdAt := createdAt link; updatedAt := Finite now |}.
Proof.
  intros (Hu & Ht & Htne & Hn & Htags). unfold updatedLink, startEdit. simpl.
  rewrite Hu, Ht, Hn, (parseTags_join _ Htags).
  unfold orElse. destruct (title link); [congruence | reflexivity].
Qed.

(** X5. The records [handleAdd] and [saveEdit] build from a form whose url
    is not blank are normal, when lower-casing keeps tags in shape. *)
Theorem handlers_build_normal_links (form : Form) (uuid : jsstring) (now : Qc)
    (link : Link) :
  tagCasing toLowerCase →
  JS.trim (form_url form) ≠ [] →
  normalLink toLowerCase (newLink toLowerCase form uuid now)
  ∧ normalLink toLowerCase (updatedLink toLowerCase link form now).
Proof.
  intros Hcase Hurl.
  assert (Hraw : form_url form ≠ []) by (intros E; rewrite E in Hurl; auto).
  pose proof (normalizeUrl_twice (form_url form)) as Hi.
  destruct (normalizeUrl_scheme _ Hraw) as [Hne _].
  assert (Htitle : ∀ t, JS.trim (orElse (JS.trim t) (normalizeUrl (form_url form)))
                        = orElse (JS.trim t) (normalizeUrl (form_url form))
                      ∧ orElse (JS.trim t) (normalizeUrl (form_url form)) ≠ []).
  { intros t. unfold orElse. destruct (JS.trim t) eqn:E; simpl.
    - split; [apply normalizeUrl_trimmed | exact Hne].
    - rewrite <- E. split; [apply trim_idempotent|]. rewrite E. discriminate. }
  split; (split; [exact Hi|]); simpl;
    (split; [apply Htitle|]); (split; [apply Htitle|]);
    (split; [apply trim_idempotent | apply parseTags_normal, Hcase]).
Qed.

End ParseTagsMore.

(** ** parseTags: the list it returns *)

Lemma join_split (sep : N) (s : jsstring) : join [sep] (JS.split sep s) = s.
Proof.
  induction s as [|c s IH]; [reflexivity|]. simpl JS.split.
  pose proof (split_not_nil sep s) as Hne.
  destruct (N.eqb_spec c sep) as [->|_].
  - destruct (JS.split sep s) as [|p ps]; [congruence|].
    change (join [sep] ([] :: p :: ps)) with (sep :: join [sep] (p :: ps)).
    rewrite IH. reflexivity.
  - destruct (JS.split sep s) as [|p ps]; [congruence|].
    destruct ps as [|q qs]; simpl in *; rewrite <- IH; reflexivity.
Qed.

Section ParseTagsList.

Variable toLowerCase : jsstring → jsstring.

(** C3, as the code has it. For every input, no entry of [parseTags] is
    empty; the list it returns is made of the pieces between the commas of
    the input, trimmed, the empty ones left out, lower-cased, in the order
    of the input, and a piece that occurs twice is kept twice: the tags of
    an input written twice with a comma in between are the tags of the
    input, twice. [parseTags("Design, , Marketing ,design")] is the list
    [design, marketing, design], whose set of entries is [{design,
    marketing}]. *)
Theorem parseTags_entries (input : jsstring) :
  lowerCasing toLowerCase →
  Forall (λ t, t ≠ []) (parseTags toLowerCase input)
  ∧ (∃ pieces, input = join (js ",") pieces
       ∧ Forall (λ piece, 44 ∉ piece) pieces
       ∧ parseTags toLowerCase input
         = toLowerCase <$> filter (λ piece, piece ≠ []) (JS.trim <$> pieces))
  ∧ (∀ t, t ∈ parseTags toLowerCase input
        ↔ ∃ piece, piece ∈ JS.split 44 input ∧ JS.trim piece ≠ []
            ∧ t = toLowerCase (JS.trim piece))
  ∧ parseTags toLowerCase (input ++ js "," ++ input)
    = parseTags toLowerCase input ++ parseTags toLowerCase input
  ∧ parseTags toLowerCase (js "Design, , Marketing ,design")
    = [js "design"; js "marketing"; js "design"]
  ∧ list_to_set (parseTags toLowerCase (js "Design, , Marketing ,design"))
    = ({[ js "design"; js "marketing" ]} : gset jsstring).
Proof.
  intros [Hne Hascii].
  assert (E : parseTags toLowerCase (js "Design, , Marketing ,design")
              = [js "design"; js "marketing"; js "design"]).
  { change (parseTags toLowerCase (js "Design, , Marketing ,design"))
      with (toLowerCase <$> [js "Design"; js "Marketing"; js "design"]).
    rewrite !fmap_cons, fmap_nil.
    rewrite !Hascii by (unfold js; simpl; repeat constructor; lia).
    reflexivity. }
  split; [|split; [|split; [|split; [|split]]]].
  - apply Forall_forall. intros t Ht.
    apply parseTags_elem_of in Ht as (piece & _ & Hpiece & ->).
    apply Hne, Hpiece.
  - exists (JS.split 44 input). split; [symmetry; apply join_split|].
    split; [apply Forall_forall; intros piece; apply split_pieces|].
    unfold parseTags. f_equal. apply list_filter_iff.
    intros [|c piece]; simpl; [tauto|]. split; [discriminate | auto].
  - intros t. apply parseTags_elem_of.
  - apply parseTags_app.
  - exact E.
  - rewrite E. simpl. set_solver.
Qed.

End ParseTagsList.

Lemma parseTags_entries_witness :
  Forall (λ t, t ≠ []) (parseTags asciiToLowerCase (js "a,,B , a"))
  ∧ parseTags asciiToLowerCase (js "a,,B , a" ++ js "," ++ js "a,,B , a")
    = parseTags asciiToLowerCase (js "a,,B , a")
      ++ parseTags asciiToLowerCase (js "a,,B , a")
  ∧ list_to_set (parseTags asciiToLowerCase (js "Design, , Marketing ,design"))
    = ({[ js "design"; js "marketing" ]} : gset jsstring).
Proof.
  destruct (parseTags_entries asciiToLowerCase (js "a,,B , a")
              asciiToLowerCase_lowerCasing) as (H1 & _ & _ & H4 & _ & H6).
  split; [exact H1|]. split; [exact H4 | exact H6].
Defined.

(** [asciiToLowerCase] keeps tags in shape. *)

Lemma asciiLower_spec (c : N) :
  JS.isWhiteSpace (JS.asciiLower c) = JS.isWhiteSpace c
  ∧ (JS.asciiLower c = 44 → c = 44)
  ∧ JS.asciiLower (JS.asciiLower c) = JS.asciiLower c.
Proof.
  unfold JS.asciiLower.
  destruct (N.leb_spec 65 c), (N.leb_spec c 90); simpl;
    repeat match goal with
           | |- context [?a <=? ?b] => destruct (N.leb_spec a b); simpl
           end;
    try (repeat split; (reflexivity || lia)).
  split; [|split; lia]. unfold JS.isWhiteSpace.
  repeat match goal with
         | |- context [?a <=? ?b] => destruct (N.leb_spec a b); simpl
         | |- context [?a =? ?b] => destruct (N.eqb_spec a b); simpl
         end; (reflexivity || lia).
Qed.

Lemma trimStart_asciiToLowerCase (s : jsstring) :
  JS.trimStart (asciiToLowerCase s) = asciiToLowerCase (JS.trimStart s).
Proof.
  induction s as [|c s IH]; [reflexivity|]. unfold asciiToLowerCase in *.
  rewrite fmap_cons. simpl.
  destruct (asciiLower_spec c) as (-> & _). destruct (JS.isWhiteSpace c).
  - exact IH.
  - rewrite fmap_cons. reflexivity.
Qed.

Lemma rev_asciiToLowerCase (s : jsstring) :
  rev (asciiToLowerCase s) = asciiToLowerCase (rev s).
Proof.
  unfold asciiToLowerCase. induction s as [|c s IH]; [reflexivity|].
  rewrite fmap_cons. simpl. rewrite IH, fmap_app. reflexivity.
Qed.

Lemma trim_asciiToLowerCase (s : jsstring) :
  JS.trim (asciiToLowerCase s) = asciiToLowerCase (JS.trim s).
Proof.
  unfold JS.trim, JS.trimEnd.
  rewrite trimStart_asciiToLowerCase, rev_asciiToLowerCase,
    trimStart_asciiToLowerCase, rev_asciiToLowerCase.
  reflexivity.
Qed.

Lemma asciiToLowerCase_tagCasing : tagCasing asciiToLowerCase.
Proof.
  intros s Hne Ht Hc. split; [|split; [|split]].
  - destruct s; [congruence | discriminate].
  - rewrite trim_asciiToLowerCase, Ht. reflexivity.
  - intros H. apply list_elem_of_fmap in H as (c & E & Hin).
    symmetry in E. apply asciiLower_spec in E. subst c. exact (Hc Hin).
  - unfold asciiToLowerCase. rewrite <- list_fmap_compose.
    apply list_fmap_ext. intros i c _. apply asciiLower_spec.
Qed.

Lemma normalLink_linkX : normalLink asciiToLowerCase linkX.
Proof.
  repeat split; try reflexivity; try discriminate.
  repeat constructor; try reflexivity; try discriminate.
  intros H. unfold js in H. simpl in H.
  repeat (apply elem_of_cons in H as [H|H]; [discriminate|]).
  apply elem_of_nil in H. exact H.
Qed.

Lemma parseTags_join_round_trip_witness :
  parseTags asciiToLowerCase (join (js ", ") (tags linkX)) = tags linkX.
Proof.
  apply (parseTags_join_round_trip asciiToLowerCase (tags linkX)).
  apply normalLink_linkX.
Defined.

Lemma saveEdit_unchanged_witness :
  updatedLink asciiToLowerCase linkX (startEdit linkX) (ms 3000)
  = {| id := id linkX; url := url linkX; title := title linkX;
       note := note linkX; tags := tags linkX;
       createdAt := createdAt linkX; updatedAt := Finite (ms 3000) |}.
Proof.
  apply (saveEdit_unchanged asciiToLowerCase linkX (ms 3000)).
  apply normalLink_linkX.
Defined.

Lemma handlers_build_normal_links_witness :
  normalLink asciiToLowerCase
    (newLink asciiToLowerCase
       {| form_url := js " Example.com "; form_title := [];
          form_note := js " read later "; form_tags := js "News, , Tech" |}
       (js "id-z") (ms 3000)).
Proof.
  apply (handlers_build_normal_links asciiToLowerCase
           {| form_url := js " Example.com "; form_title := [];
              form_note := js " read later "; form_tags := js "News, , Tech" |}
           (js "id-z") (ms 3000) linkX asciiToLowerCase_tagCasing).
  discriminate.
Defined.

(** ** db.js: what an operation changes *)

Lemma openDB_objects (w : World) : objects (openDB w).2 = objects w.
Proof.
  unfold openDB. destruct (dbPromise w); [reflexivity|]. reflexivity.
Qed.

(** What [withStore] leaves in the store: what the request wrote when the
    promise is fulfilled, and what was there when it is rejected. *)
Lemma withStore_objects (callback : gmap Key Link → request) (w : World) :
  match (withStore callback w).1 with
  | Fulfilled _ => callback (objects w) = ReqSucceeds (objects (withStore callback w).2)
  | Rejected _ => objects (withStore callback w).2 = objects w
  end.
Proof.
  unfold withStore. pose proof (openDB_objects w) as Ho.
  destruct (openDB w) as [[[]|e] w1]; simpl in *; [|exact Ho].
  rewrite Ho. destruct (callback (objects w)); simpl; auto.
Qed.

Lemma getAllLinks_objects (w : World) : objects (getAllLinks w).2 = objects w.
Proof.
  unfold getAllLinks. pose proof (openDB_objects w) as Ho.
  destruct (openDB w) as [[[]|e] w1]; exact Ho.
Qed.

(** A fulfilled operation leaves a world whose database can be used. *)
Lemma withStore_fulfilled_opens (callback : gmap Key Link → request) (w : World) :
  (withStore callback w).1 = Fulfilled () → opens (withStore callback w).2.
Proof.
  unfold withStore, opens, openDB.
  destruct (dbPromise w) as [[[]|e]|] eqn:E; simpl.
  - destruct (callback (objects w)); simpl; try discriminate.
    rewrite E. reflexivity.
  - discriminate.
  - destruct (idbOpenOk w (openCalls w)); simpl; [|discriminate].
    destruct (callback (objects w)); simpl; try discriminate. reflexivity.
Qed.

(** X6. An operation that is rejected has written nothing, whatever the
    reason of the rejection, and [getAllLinks] never writes. *)
Theorem rejected_operation_writes_nothing (op : operation) (w : World) (e : exn) :
  (runOp op w).1 = Rejected e →
  objects (runOp op w).2 = objects w
  ∧ objects (getAllLinks w).2 = objects w.
Proof.
  intros H. split; [|apply getAllLinks_objects].
  destruct op as [|link|link|key]; simpl in *.
  - pose proof (getAllLinks_objects w) as Ho.
    destruct (getAllLinks w) as [r w1]. exact Ho.
  - pose proof (withStore_objects (IDBObjectStore.add link) w) as Ho.
    unfold addLink in *. rewrite H in Ho. exact Ho.
  - pose proof (withStore_objects (IDBObjectStore.put link) w) as Ho.
    unfold updateLink in *. rewrite H in Ho. exact Ho.
  - pose proof (withStore_objects (IDBObjectStore.delete key) w) as Ho.
    unfold deleteLink in *. rewrite H in Ho. exact Ho.
Qed.

Lemma rejected_operation_writes_nothing_witness :
  objects (runOp (OpAdd linkX) worldX).2 = objects worldX.
Proof.
  destruct (rejected_operation_writes_nothing (OpAdd linkX) worldX NullReason)
    as [H _]; [reflexivity | exact H].
Defined.

Lemma runOp_wellKeyed (op : operation) (w : World) :
  wellKeyed (objects w) → wellKeyed (objects (runOp op w).2).
Proof.
  intros Hw.
  assert (Hcb : ∀ cb,
    (∀ o, cb (objects w) = ReqSucceeds o → wellKeyed o) →
    wellKeyed (objects (withStore cb w).2)).
  { intros cb Hcb. pose proof (withStore_objects cb w) as Ho.
    destruct ((withStore cb w).1); [apply Hcb, Ho | rewrite Ho; exact Hw]. }
  destruct op as [|link|link|key]; simpl.
  - pose proof (getAllLinks_objects w) as Ho.
    destruct (getAllLinks w) as [r w1]. simpl in *. rewrite Ho. exact Hw.
  - apply Hcb. unfold IDBObjectStore.add, IDBObjectStore.keyOf. intros o.
    destruct (toKey (id link)) as [k|] eqn:Ek; [|discriminate].
    destruct (objects w !! k); [discriminate|]. intros [= <-] k' l.
    rewrite lookup_insert. case_decide; [intros [= <-]; congruence | apply Hw].
  - apply Hcb. unfold IDBObjectStore.put, IDBObjectStore.keyOf. intros o.
    destruct (toKey (id link)) as [k|] eqn:Ek; [|discriminate].
    intros [= <-] k' l.
    rewrite lookup_insert. case_decide; [intros [= <-]; congruence | apply Hw].
  - apply Hcb. unfold IDBObjectStore.delete. intros o.
    destruct (toKey key) as [k|]; [|discriminate]. intros [= <-] k' l.
    rewrite lookup_delete. case_decide; [discriminate | apply Hw].
Qed.

Lemma runOps_wellKeyed (ops : list operation) (w : World) :
  wellKeyed (objects w) → wellKeyed (objects (runOps ops w).2).
Proof.
  revert w. induction ops as [|op ops IH]; intros w Hw; simpl; [exact Hw|].
  pose proof (runOp_wellKeyed op w Hw) as H1.
  destruct (runOp op w) as [r w1]. simpl in *.
  pose proof (IH w1 H1) as H2. destruct (runOps ops w1) as [rs w2]. exact H2.
Qed.

Lemma wellKeyed_ids_NoDup (o : gmap Key Link) :
  wellKeyed o → NoDup (id <$> IDBObjectStore.getAll o).
Proof.
  intros Hw. unfold IDBObjectStore.getAll. rewrite <- list_fmap_compose.
  apply NoDup_fmap_2_strong; [|apply NoDup_map_to_list].
  intros [k1 l1] [k2 l2] H1 H2 E. simpl in E.
  apply elem_of_map_to_list in H1, H2.
  pose proof (Hw _ _ H1) as E1. pose proof (Hw _ _ H2) as E2.
  rewrite E in E1. assert (k1 = k2) by congruence. subst k2.
  f_equal. congruence.
Qed.

(** X7. The operations keep every record under the key of its own id; so
    after any operations on such a store the records [getAllLinks] returns
    have ids that differ from one another. *)
Theorem ids_stay_unique (ops : list operation) (w : World) :
  wellKeyed (objects w) →
  wellKeyed (objects (runOps ops w).2)
  ∧ NoDup (id <$> IDBObjectStore.getAll (objects (runOps ops w).2))
  ∧ ∀ all, (getAllLinks (runOps ops w).2).1 = Fulfilled all → NoDup (id <$> all).
Proof.
  intros Hw. pose proof (runOps_wellKeyed ops w Hw) as H.
  split; [exact H|]. split; [apply wellKeyed_ids_NoDup, H|].
  intros all. unfold getAllLinks.
  pose proof (openDB_objects (runOps ops w).2) as Ho.
  destruct (openDB (runOps ops w).2) as [[[]|e] w1]; simpl in *; [|discriminate].
  intros [= <-]. rewrite Ho. apply wellKeyed_ids_NoDup, H.
Qed.

Lemma wellKeyed_worldX : wellKeyed (objects worldX).
Proof.
  intros k l H. unfold worldX, startWorld in H. simpl in H.
  apply lookup_singleton_Some in H as [<- <-]. reflexivity.
Qed.

Lemma ids_stay_unique_witness :
  NoDup (id <$> IDBObjectStore.getAll
                  (objects (runOps [OpAdd linkY; OpUpdate linkX; OpAdd linkX] worldX).2)).
Proof.
  destruct (ids_stay_unique [OpAdd linkY; OpUpdate linkX; OpAdd linkX] worldX
              wellKeyed_worldX) as (_ & H & _).
  exact H.
Defined.

Lemma runOp_opens (op : operation) (w : World) :
  opens w →
  opens (runOp op w).2 ∧ ∀ n, (runOp op w).1 ≠ Rejected (OpenError n).
Proof.
  intros Hw. destruct (openDB_opens w Hw) as (w1 & E & Ho & Hw1).
  assert (Hset : ∀ o, opens (setObjects o w1)).
  { intros o. revert Hw1. unfold opens, openDB, setObjects. simpl.
    destruct (dbPromise w1); simpl; [auto|].
    destruct (idbOpenOk w1 (openCalls w1)); auto. }
  destruct op as [|link|link|key]; simpl;
    unfold getAllLinks, addLink, updateLink, deleteLink, withStore;
    rewrite E; simpl; [split; [exact Hw1 | discriminate] | | |].
  - unfold IDBObjectStore.add.
    destruct (IDBObjectStore.keyOf link) as [k|]; simpl;
      [destruct (objects w1 !! k); simpl|]; split; auto; discriminate.
  - unfold IDBObjectStore.put.
    destruct (IDBObjectStore.keyOf link) as [k|]; simpl; split; auto;
      discriminate.
  - unfold IDBObjectStore.delete.
    destruct (toKey key) as [k|]; simpl; split; auto; discriminate.
Qed.

(** X8. Once the database can be used it stays so: after any operations
    the memoised connection is still good, and none of the operations was
    rejected for a failure to open the database. *)
Theorem opened_database_stays_open (ops : list operation) (w : World) :
  opens w →
  opens (runOps ops w).2
  ∧ Forall (λ r, ∀ n, r ≠ Rejected (OpenError n)) (runOps ops w).1.
Proof.
  revert w. induction ops as [|op ops IH]; intros w Hw; simpl.
  - split; [exact Hw | constructor].
  - destruct (runOp_opens op w Hw) as [H1 Hr].
    destruct (runOp op w) as [r w1]. simpl in *.
    destruct (IH w1 H1) as [H2 Hrs]. destruct (runOps ops w1) as [rs w2].
    simpl in *. split; [exact H2 | constructor; assumption].
Qed.

Lemma opened_database_stays_open_witness :
  opens (runOps [OpAdd linkX; OpDelete (VBool true); OpGetAll] worldX).2.
Proof.
  destruct (opened_database_stays_open
              [OpAdd linkX; OpDelete (VBool true); OpGetAll] worldX) as [H _];
    [reflexivity | exact H].
Defined.

(** ** The handlers and the store *)

Section HandlersAndStore.

Variable toLowerCase : jsstring → jsstring.

(** X9. [handleAdd] ends in one of three ways: the url field is blank,
    the message asks for a url and the world is untouched; or the record
    could not be saved and the store is as before; or the message is empty,
    the id was not in the store, and the store has gained the new record,
    whose url is not empty and starts with a scheme. It never overwrites a
    record. *)
Theorem handleAdd_outcomes (form : Form) (uuid : jsstring) (now : Qc) (w : World) :
  (JS.trim (form_url form) = []
   ∧ handleAdd toLowerCase form uuid now w = (js "Please enter a URL.", w))
  ∨ (JS.trim (form_url form) ≠ []
     ∧ (handleAdd toLowerCase form uuid now w).1 = js "Could not save that link."
     ∧ objects (handleAdd toLowerCase form uuid now w).2 = objects w)
  ∨ (JS.trim (form_url form) ≠ []
     ∧ (handleAdd toLowerCase form uuid now w).1 = []
     ∧ objects w !! KString uuid = None
     ∧ objects (handleAdd toLowerCase form uuid now w).2
       = <[KString uuid := newLink toLowerCase form uuid now]> (objects w)
     ∧ url (newLink toLowerCase form uuid now) ≠ []
     ∧ startsWithScheme (url (newLink toLowerCase form uuid now))).
Proof.
  destruct (JS.trim (form_url form)) as [|c r] eqn:Et.
  - left. split; [reflexivity|]. apply handleAdd_blank_url, Et.
  - right. assert (Hne : c :: r ≠ []) by discriminate.
    unfold handleAdd. rewrite Et. simpl negb. cbv iota.
    pose proof (withStore_objects
                  (IDBObjectStore.add (newLink toLowerCase form uuid now)) w) as Ho.
    unfold addLink.
    destruct (withStore _ w) as [[[]|e] w1]; simpl in *.
    + right. split; [exact Hne|]. split; [reflexivity|].
      unfold IDBObjectStore.add, IDBObjectStore.keyOf in Ho. simpl in Ho.
      destruct (objects w !! KString uuid); [discriminate|].
      injection Ho as Ho. split; [reflexivity|]. split; [congruence|].
      apply normalizeUrl_scheme. intros E. rewrite E in Et. discriminate.
    + left. split; [exact Hne|]. split; [reflexivity | exact Ho].
Qed.

(** X10. Removing the record that [handleAdd] has just saved puts the
    store back as it was before the two. *)
Theorem handleAdd_removeLink (form : Form) (uuid : jsstring) (now : Qc) (w : World) :
  JS.trim (form_url form) ≠ [] →
  (handleAdd toLowerCase form uuid now w).1 = [] →
  (removeLink (newLink toLowerCase form uuid now)
     (handleAdd toLowerCase form uuid now w).2).1 = None
  ∧ objects (removeLink (newLink toLowerCase form uuid now)
               (handleAdd toLowerCase form uuid now w).2).2 = objects w.
Proof.
  intros Hne. unfold handleAdd.
  destruct (JS.trim (form_url form)) as [|c r] eqn:Et; [congruence|].
  simpl negb. cbv iota.
  pose proof (withStore_objects
                (IDBObjectStore.add (newLink toLowerCase form uuid now)) w) as Ho.
  pose proof (withStore_fulfilled_opens
                (IDBObjectStore.add (newLink toLowerCase form uuid now)) w) as Hop.
  unfold addLink.
  destruct (withStore _ w) as [[[]|e] w1]; simpl in *; [|discriminate].
  intros _. specialize (Hop eq_refl).
  unfold IDBObjectStore.add, IDBObjectStore.keyOf in Ho. simpl in Ho.
  destruct (objects w !! KString uuid) eqn:Hk; [discriminate|].
  injection Ho as Ho.
  destruct (withStore_succeeds (IDBObjectStore.delete (VString uuid)) w1
              (delete (KString uuid) (objects w1)) Hop eq_refl) as (Hr & Hd & _).
  unfold removeLink, deleteLink. simpl id.
  destruct (withStore (IDBObjectStore.delete (VString uuid)) w1) as [res w2].
  simpl in *. subst res. split; [reflexivity|]. simpl.
  rewrite Hd, <- Ho. apply delete_insert_id, Hk.
Qed.

(** X11. Of two edits of one record saved one after the other, the store
    keeps the second: it is as if only the second had been saved. *)
Theorem saveEdit_last_wins (link : Link) (first second : Form) (t1 t2 : Qc)
    (k : Key) (w : World) :
  opens w → toKey (id link) = Some k →
  objects (saveEdit toLowerCase (updatedLink toLowerCase link first t1) second t2
             (saveEdit toLowerCase link first t1 w).2).2
  = <[k := {| id := id link;
              url := normalizeUrl (form_url second);
              title := orElse (JS.trim (form_title second))
                         (normalizeUrl (form_url second));
              note := JS.trim (form_note second);
              tags := parseTags toLowerCase (form_tags second);
              createdAt := createdAt link;
              updatedAt := Finite t2 |}]> (objects w).
Proof.
  intros Hw Hk.
  destruct (saveEdit_stores toLowerCase link first t1 k w Hw Hk) as [_ Ho1].
  assert (Hw1 : opens (saveEdit toLowerCase link first t1 w).2).
  { unfold saveEdit, updateLink.
    destruct (withStore_succeeds
                (IDBObjectStore.put (updatedLink toLowerCase link first t1)) w
                (<[k := updatedLink toLowerCase link first t1]> (objects w)) Hw)
      as (Hr & _ & Hop).
    { unfold IDBObjectStore.put, IDBObjectStore.keyOf. simpl. rewrite Hk.
      reflexivity. }
    destruct (withStore _ w) as [r w1]. simpl in *. subst r. exact Hop. }
  destruct (saveEdit_stores toLowerCase (updatedLink toLowerCase link first t1)
              second t2 k _ Hw1 Hk) as [_ Ho2].
  rewrite Ho2, Ho1, insert_insert_eq. reflexivity.
Qed.

End HandlersAndStore.

Lemma handleAdd_removeLink_witness :
  objects (removeLink
             (newLink asciiToLowerCase
                {| form_url := js "y.com"; form_title := []; form_note := [];
                   form_tags := [] |} (js "id-y") (ms 2000))
             (handleAdd asciiToLowerCase
                {| form_url := js "y.com"; form_title := []; form_note := [];
                   form_tags := [] |} (js "id-y") (ms 2000) worldX).2).2
  = objects worldX.
Proof.
  destruct (handleAdd_removeLink asciiToLowerCase
              {| form_url := js "y.com"; form_title := []; form_note := [];
                 form_tags := [] |} (js "id-y") (ms 2000) worldX) as [_ H];
    [discriminate | reflexivity | exact H].
Defined.

Lemma saveEdit_last_wins_witness :
  url <$> (objects (saveEdit asciiToLowerCase
                      (updatedLink asciiToLowerCase linkX (startEdit linkY) (ms 3000))
                      (startEdit linkX) (ms 4000)
                      (saveEdit asciiToLowerCase linkX (startEdit linkY) (ms 3000)
                         worldX).2).2 !! keyX)
  = Some (js "https://x.com").
Proof.
  rewrite (saveEdit_last_wins asciiToLowerCase linkX (startEdit linkY)
             (startEdit linkX) (ms 3000) (ms 4000) keyX worldX);
    [|reflexivity|reflexivity].
  rewrite lookup_insert_eq. reflexivity.
Defined.

(** ** Sorting: allTags and the loaded collection *)

Section StableSort.

Context {A : Type} (lt : A → A → bool).

Lemma insertSorted_Permutation (x : A) (s : list A) :
  insertSorted lt x s ≡ₚ x :: s.
Proof.
  induction s as [|y s IH]; simpl; [reflexivity|].
  destruct (lt y x); [|reflexivity]. rewrite IH. apply Permutation_swap.
Qed.

Lemma stableSort_Permutation (l : list A) : stableSort lt l ≡ₚ l.
Proof.
  induction l as [|x l IH]; simpl; [reflexivity|].
  rewrite insertSorted_Permutation, IH. reflexivity.
Qed.

Hypothesis lt_asym : ∀ x y, lt x y = true → lt y x = false.

Lemma insertSorted_Sorted (x : A) (s : list A) :
  Sorted (λ u v, lt v u = false) s →
  Sorted (λ u v, lt v u = false) (insertSorted lt x s).
Proof.
  induction 1 as [|y s Hs IH Hhd]; simpl; [repeat constructor|].
  destruct (lt y x) eqn:E.
  - constructor; [exact IH|].
    destruct Hhd as [|z s' Hz]; simpl; [repeat constructor; auto|].
    destruct (lt z x); constructor; auto.
  - repeat constructor; assumption.
Qed.

Lemma stableSort_Sorted (l : list A) :
  Sorted (λ u v, lt v u = false) (stableSort lt l).
Proof.
  induction l as [|x l IH]; simpl; [constructor|].
  apply insertSorted_Sorted, IH.
Qed.

End StableSort.

Lemma stringLt_irrefl (a : jsstring) : stringLt a a = false.
Proof.
  induction a as [|c a IH]; simpl; [reflexivity|].
  rewrite N.ltb_irrefl, N.eqb_refl, IH. reflexivity.
Qed.

Lemma stringLt_trans (a b c : jsstring) :
  stringLt a b = true → stringLt b c = true → stringLt a c = true.
Proof.
  revert b c. induction a as [|x a IH]; intros [|y b] [|z c]; simpl;
    try discriminate; try reflexivity.
  rewrite !orb_true_iff, !andb_true_iff, !N.ltb_lt, !N.eqb_eq.
  intros [H1|[-> H1]] [H2|[-> H2]]; [left; lia | left; lia | left; lia |].
  right. split; [reflexivity|]. exact (IH _ _ H1 H2).
Qed.

Lemma stringLt_total (a b : jsstring) :
  stringLt a b = false → stringLt b a = false → a = b.
Proof.
  revert b. induction a as [|x a IH]; intros [|y b]; simpl;
    try discriminate; try reflexivity.
  rewrite !orb_false_iff, !andb_false_iff, !N.ltb_ge, !N.eqb_neq.
  intros [H1 H1'] [H2 H2']. assert (x = y) by lia. subst y. f_equal.
  apply IH; [destruct H1' | destruct H2']; congruence.
Qed.

Lemma stringLt_asym (a b : jsstring) :
  stringLt a b = true → stringLt b a = false.
Proof.
  intros H. destruct (stringLt b a) eqn:E; [|reflexivity].
  pose proof (stringLt_trans _ _ _ H E) as F.
  rewrite stringLt_irrefl in F. discriminate.
Qed.

Lemma setAddAll_elem_of (set xs : list jsstring) (t : jsstring) :
  t ∈ setAddAll set xs ↔ t ∈ set ∨ t ∈ xs.
Proof.
  revert set. induction xs as [|x xs IH]; intros set; simpl.
  - rewrite elem_of_nil. tauto.
  - rewrite IH, elem_of_cons. case_decide.
    + split; [tauto|]. intros [H'|[->|H']]; auto.
    + rewrite elem_of_app, list_elem_of_singleton. tauto.
Qed.

Lemma setAddAll_NoDup (set xs : list jsstring) :
  NoDup set → NoDup (setAddAll set xs).
Proof.
  revert set. induction xs as [|x xs IH]; intros set Hset; simpl; [exact Hset|].
  apply IH. case_decide; [exact Hset|].
  apply NoDup_app. split; [exact Hset|]. split; [|apply NoDup_singleton].
  intros y Hy ->%list_elem_of_singleton. contradiction.
Qed.

Lemma elem_of_concat_tags (links : list Link) (t : jsstring) :
  t ∈ concat (tags <$> links) ↔ ∃ l, l ∈ links ∧ t ∈ tags l.
Proof.
  induction links as [|l links IH]; simpl.
  - rewrite elem_of_nil. split; [tauto|]. intros (l & H & _).
    apply elem_of_nil in H. exact H.
  - rewrite elem_of_app, IH. split.
    + intros [H|(l' & H1 & H2)]; [exists l | exists l']; split; auto;
        [left | right; exact H1].
    + intros (l' & [->|H1]%elem_of_cons & H2); [left; exact H2|].
      right. exists l'. auto.
Qed.

(** X12. [allTags] lists exactly the tags that some link carries, each
    once, in the ascending order of their code units. *)
Theorem allTags_sorted (links : list Link) :
  StronglySorted (λ a b, stringLt a b = true) (allTags links)
  ∧ NoDup (allTags links)
  ∧ ∀ t, t ∈ allTags links ↔ ∃ l, l ∈ links ∧ t ∈ tags l.
Proof.
  unfold allTags. set (ts := setAddAll [] (concat (tags <$> links))).
  assert (Hnd : NoDup (stableSort stringLt ts)).
  { rewrite stableSort_Permutation. apply setAddAll_NoDup, NoDup_nil_2. }
  split; [|split; [exact Hnd|]].
  - assert (Htrans : Transitive (λ a b : jsstring, stringLt a b = true)).
    { intros a b c. apply stringLt_trans. }
    apply Sorted_StronglySorted; [exact Htrans|].
    pose proof (stableSort_Sorted stringLt stringLt_asym ts) as Hs.
    induction Hs as [|x s Hs IH Hhd]; [constructor|].
    apply NoDup_cons in Hnd as [Hx Hnd]. constructor; [apply IH, Hnd|].
    destruct Hhd as [|y s' Hy]; constructor.
    destruct (stringLt x y) eqn:E; [reflexivity|].
    exfalso. apply Hx. rewrite (stringLt_total x y E Hy). left.
  - intros t. rewrite stableSort_Permutation. unfold ts.
    rewrite setAddAll_elem_of, elem_of_concat_tags, elem_of_nil. tauto.
Qed.

Lemma minusNegative_numberLe (x y : number) :
  x ≠ NaN → y ≠ NaN → minusNegative x y = false → numberLe y x.
Proof.
  destruct x as [|[]|p], y as [|[]|q]; simpl; try congruence; auto.
  intros _ _ H. apply bool_decide_eq_false in H. apply Qcnot_lt_le, H.
Qed.

Lemma numberLe_trans (x y z : number) :
  numberLe x y → numberLe y z → numberLe x z.
Proof.
  destruct x as [|[]|p], y as [|[]|q], z as [|[]|r]; simpl; try tauto.
  apply Qcle_trans.
Qed.

Lemma newerFirst_asym (a b : Link) :
  newerFirst a b = true → newerFirst b a = false.
Proof.
  unfold newerFirst.
  destruct (createdAt a) as [|[]|p], (createdAt b) as [|[]|q]; simpl;
    try congruence.
  intros H. apply bool_decide_eq_true in H. apply bool_decide_eq_false.
  apply Qcle_not_lt, Qclt_le_weak, H.
Qed.

(** X13. When the database can be used and no stored [createdAt] is
    [NaN], the effect that loads the collection sets no error message,
    writes nothing, and leaves in memory the stored records, all of them,
    the newest first. *)
Theorem loadLinks_newest_first (w : World) :
  opens w →
  (∀ l, l ∈ IDBObjectStore.getAll (objects w) → createdAt l ≠ NaN) →
  (loadLinks w).1.2 = []
  ∧ objects (loadLinks w).2 = objects w
  ∧ (loadLinks w).1.1 ≡ₚ IDBObjectStore.getAll (objects w)
  ∧ StronglySorted (λ a b, numberLe (createdAt b) (createdAt a)) (loadLinks w).1.1.
Proof.
  intros Hw Hnan. destruct (getAllLinks_opens w Hw) as [Hall Ho].
  unfold loadLinks. destruct (getAllLinks w) as [r w1]. simpl in *. subst r.
  simpl. split; [reflexivity|]. split; [exact Ho|].
  split; [apply stableSort_Permutation|].
  set (data := IDBObjectStore.getAll (objects w)) in *.
  assert (Hin : ∀ l, l ∈ stableSort newerFirst data → createdAt l ≠ NaN).
  { intros l Hl. apply Hnan. rewrite <- (stableSort_Permutation newerFirst data).
    exact Hl. }
  pose proof (stableSort_Sorted newerFirst newerFirst_asym data) as Hs.
  induction Hs as [|x s Hs IH Hhd]; [constructor|].
  assert (Hs' : StronglySorted (λ a b, numberLe (createdAt b) (createdAt a)) s).
  { apply IH. intros l Hl. apply Hin. right. exact Hl. }
  constructor; [exact Hs'|].
  destruct Hhd as [|y s' Hy]; [constructor|].
  assert (Hxy : numberLe (createdAt y) (createdAt x)).
  { apply minusNegative_numberLe; [apply Hin; left | apply Hin; right; left | exact Hy]. }
  constructor; [exact Hxy|].
  apply StronglySorted_cons in Hs' as [Hall' _].
  eapply Forall_impl; [exact Hall'|]. intros z Hz. simpl in Hz.
  exact (numberLe_trans _ _ _ Hz Hxy).
Qed.

Lemma loadLinks_newest_first_witness :
  (loadLinks (startWorld (λ _, true) (<[keyY := linkY]> {[ keyX := linkX ]}))).1.1
  ≡ₚ IDBObjectStore.getAll (<[keyY := linkY]> {[ keyX := linkX ]}).
Proof.
  destruct (loadLinks_newest_first
              (startWorld (λ _, true) (<[keyY := linkY]> {[ keyX := linkX ]})))
    as (_ & _ & H & _); [reflexivity | | exact H].
  intros l Hl. unfold IDBObjectStore.getAll in Hl.
  apply list_elem_of_fmap in Hl as ([k l'] & -> & Hl).
  apply elem_of_map_to_list in Hl. simpl in Hl.
  apply lookup_insert_Some in Hl as [[_ <-]|[_ Hl]]; [discriminate|].
  apply lookup_singleton_Some in Hl as [_ <-]. discriminate.
Defined.

(** ** filteredLinks *)

Lemma startsWith_spec (q s : jsstring) :
  startsWith q s = true ↔ ∃ r, s = q ++ r.
Proof.
  revert s. induction q as [|c q IH]; intros s; simpl.
  - split; [intros _; exists s; reflexivity | reflexivity].
  - destruct s as [|d s].
    + split; [discriminate|]. intros [r [=]].
    + rewrite andb_true_iff, N.eqb_eq, IH. split.
      * intros [-> [r ->]]. exists r. reflexivity.
      * intros [r [= -> ->]]. split; [reflexivity|]. exists r. reflexivity.
Qed.

Lemma includes_spec (s q : jsstring) :
  includes s q = true ↔ ∃ a b, s = a ++ q ++ b.
Proof.
  induction s as [|d s IH].
  - simpl. rewrite orb_false_r, startsWith_spec. split.
    + intros [r ->]. exists [], r. reflexivity.
    + intros (a & b & E). destruct a; [exists b; exact E | discriminate].
  - change (includes (d :: s) q) with (startsWith q (d :: s) || includes s q).
    rewrite orb_true_iff, startsWith_spec, IH. split.
    + intros [[r ->]|(a & b & ->)]; [exists [], r | exists (d :: a), b];
        reflexivity.
    + intros (a & b & E). destruct a as [|d' a].
      * left. exists b. exact E.
      * right. injection E as -> ->. exists a, b. reflexivity.
Qed.

Section ViewProperties.

Variable toLowerCase : jsstring → jsstring.

(** X14. A link is shown exactly when it is in the collection, the tag
    filter is ['all'] or one of its tags, and the lower-cased trimmed search
    text is empty or occurs in its lower-cased text; the links shown keep
    the order of the collection. *)
Theorem filteredLinks_shown (links : list Link) (search tagFilter : jsstring)
    (l : Link) :
  (l ∈ filteredLinks toLowerCase links search tagFilter
   ↔ l ∈ links
     ∧ (tagFilter = js "all" ∨ tagFilter ∈ tags l)
     ∧ (toLowerCase (JS.trim search) = []
        ∨ ∃ a b, haystack toLowerCase l
                 = a ++ toLowerCase (JS.trim search) ++ b))
  ∧ filteredLinks toLowerCase links search tagFilter `sublist_of` links.
Proof.
  split; [|apply sublist_filter]. unfold filteredLinks.
  rewrite list_elem_of_filter, <- includes_spec.
  destruct (toLowerCase (JS.trim search)) as [|c q] eqn:Eq; simpl.
  - repeat case_bool_decide; simpl; intuition congruence.
  - repeat case_bool_decide; simpl;
      destruct (includes (haystack toLowerCase l) (c :: q)); simpl;
      intuition congruence.
Qed.

(** X15. With a blank search text, white space included, the tag filter
    alone decides: ['all'] shows the whole collection, also the links that
    do not carry a tag of that name, and another filter shows the links
    with that tag. *)
Theorem filteredLinks_blank_search (links : list Link) (search tagFilter : jsstring) :
  toLowerCase [] = [] → whiteSpaceOnly search →
  filteredLinks toLowerCase links search (js "all") = links
  ∧ filteredLinks toLowerCase links search tagFilter
    = filter (λ l, tagFilter = js "all" ∨ tagFilter ∈ tags l) links.
Proof.
  intros Hlow Hws. unfold filteredLinks.
  rewrite (trim_whiteSpaceOnly search Hws), Hlow. simpl. split.
  - induction links as [|l links IH]; [reflexivity|].
    rewrite filter_cons_True; [rewrite IH; reflexivity | exact I].
  - apply list_filter_iff. intros l.
    repeat case_bool_decide; simpl; intuition congruence.
Qed.

End ViewProperties.

Lemma filteredLinks_blank_search_witness :
  filteredLinks asciiToLowerCase [linkY; linkX] (js "  ") (js "all")
  = [linkY; linkX]
  ∧ filteredLinks asciiToLowerCase [linkY; linkX] (js "  ") (js "design")
    = filter (λ l, js "design" = js "all" ∨ js "design" ∈ tags l) [linkY; linkX].
Proof.
  apply (filteredLinks_blank_search asciiToLowerCase [linkY; linkX] (js "  ")
           (js "design")).
  - reflexivity.
  - unfold js; simpl; repeat constructor.
Defined.

(** ** Export and import *)

Section ExportImport.

Variable toLowerCase : jsstring → jsstring.
Variable numberToString : number → jsstring.

Lemma survivor_JSON_link (l : Link) :
  survivor (JSON.link l) = Some (JSON.link l, url l).
Proof. unfold JSON.link. destruct (JSON.clone (id l)); reflexivity. Qed.

Lemma omap_survivor_export (links : list Link) :
  omap survivor (JSON.link <$> links) = (λ l, (JSON.link l, url l)) <$> links.
Proof.
  induction links as [|l links IH]; [reflexivity|].
  rewrite !fmap_cons.
  transitivity
    (match survivor (JSON.link l) with
     | Some y => y :: omap survivor (JSON.link <$> links)
     | None => omap survivor (JSON.link <$> links)
     end); [reflexivity|].
  rewrite survivor_JSON_link, IH. reflexivity.
Qed.

Lemma importedTags_strings (ts : list jsstring) :
  importedTags toLowerCase numberToString (VString <$> ts)
  = Return ((λ t, JS.trim (toLowerCase t)) <$> ts).
Proof.
  induction ts as [|t ts IH]; [reflexivity|].
  rewrite !fmap_cons. simpl. rewrite IH. reflexivity.
Qed.

Lemma get_JSON_link (l : Link) :
  Value.get (js "id") (JSON.link l) = default VUndefined (JSON.clone (id l))
  ∧ Value.get (js "title") (JSON.link l) = VString (title l)
  ∧ Value.get (js "note") (JSON.link l) = VString (note l)
  ∧ Value.get (js "tags") (JSON.link l) = VArray (VString <$> tags l)
  ∧ Value.get (js "createdAt") (JSON.link l) = JSON.number (createdAt l)
  ∧ Value.get (js "updatedAt") (JSON.link l) = JSON.number (updatedAt l).
Proof.
  unfold JSON.link. destruct (JSON.clone (id l)); repeat split; reflexivity.
Qed.

Lemma filter_normal_tags (ts : list jsstring) :
  Forall (normalTag toLowerCase) ts →
  filter (λ tag, Is_true (JS.truthy_string tag))
    ((λ t, JS.trim (toLowerCase t)) <$> ts) = ts.
Proof.
  induction 1 as [|t ts (H1 & H2 & _ & H4) _ IH]; [reflexivity|].
  rewrite fmap_cons, H4, H2.
  rewrite filter_cons_True by (destruct t; [congruence | exact I]).
  rewrite IH. reflexivity.
Qed.

(** The record the import builds of an exported record. *)
Lemma importedLink_JSON_link (l : Link) (uuid : jsstring) (now : Qc) :
  ∃ l', importedLink toLowerCase numberToString (JSON.link l) (url l) uuid now
        = Return l'
        ∧ url l' = normalizeUrl (url l)
        ∧ (exportable toLowerCase l → l' = l).
Proof.
  destruct (get_JSON_link l) as (Gi & Gt & Gn & Gg & Gc & Gm).
  unfold importedLink. cbv zeta. rewrite Gi, Gt, Gn, Gg, Gc, Gm.
  unfold mbind, completion_bind. simpl Value.truthy.
  destruct (JS.truthy_string (title l)) eqn:Et;
    destruct (JS.truthy_string (note l)) eqn:En;
    simpl Value.toString; cbv iota beta; rewrite importedTags_strings;
    (eexists; split; [reflexivity|]; split; [reflexivity|]);
    intros ((Hu & Ht & Htne & Hn & Htags) & (s & Hid & Hs) & (qc & Hc) & (qm & Hm));
    try (destruct (title l); [congruence | discriminate]);
    destruct l as [i u t n ts c m]; simpl in *; subst i c m; simpl;
    (replace (JS.truthy_string s) with true by (destruct s; [congruence | reflexivity]));
    rewrite Hu, Ht, (filter_normal_tags ts Htags); f_equal;
    [exact Hn | destruct n; [reflexivity | discriminate]].
Qed.

Lemma importedLinks_export (links : list Link) (i : nat)
    (uuids : nat → jsstring) (clock : nat → Qc) :
  ∃ ls, importedLinks toLowerCase numberToString i
          ((λ l, (JSON.link l, url l)) <$> links) uuids clock = Return ls
        ∧ url <$> ls = (λ l, normalizeUrl (url l)) <$> links
        ∧ (Forall (exportable toLowerCase) links → ls = links).
Proof.
  revert i. induction links as [|l links IH]; intros i.
  - exists []. repeat split; reflexivity.
  - destruct (importedLink_JSON_link l (uuids i) (clock i)) as (l' & El & Hu & Hl).
    destruct (IH (S i)) as (ls & Els & Hus & Hls).
    exists (l' :: ls). rewrite fmap_cons. simpl. rewrite El. simpl.
    rewrite Els. simpl. split; [reflexivity|]. split.
    + f_equal; [exact Hu | exact Hus].
    + intros H. apply Forall_cons in H as [H1 H2].
      rewrite (Hl H1), (Hls H2). reflexivity.
Qed.

Lemma normalizeImportedLinks_export (exportedAt : jsstring) (links : list Link)
    (uuids : nat → jsstring) (clock : nat → Qc) :
  ∃ ls, normalizeImportedLinks toLowerCase numberToString
          (exportLinks exportedAt links) uuids clock = Return ls
        ∧ url <$> ls = (λ l, normalizeUrl (url l)) <$> links
        ∧ (Forall (exportable toLowerCase) links → ls = links).
Proof.
  unfold normalizeImportedLinks.
  change (if Value.isArray (exportLinks exportedAt links) then _ else _)
    with (VArray (JSON.link <$> links)).
  cbv iota beta. rewrite omap_survivor_export. apply importedLinks_export.
Qed.

(** X16. Exporting exportable records and reading the file back with
    [normalizeImportedLinks] gives the same records, in the same order:
    ids, urls, titles, notes, tags and timestamps all survive. *)
Theorem export_import_round_trip (exportedAt : jsstring) (links : list Link)
    (uuids : nat → jsstring) (clock : nat → Qc) :
  Forall (exportable toLowerCase) links →
  normalizeImportedLinks toLowerCase numberToString
    (exportLinks exportedAt links) uuids clock = Return links.
Proof.
  intros H.
  destruct (normalizeImportedLinks_export exportedAt links uuids clock)
    as (ls & E & _ & Hls).
  rewrite E, (Hls H). reflexivity.
Qed.

(** X17. Importing the export of the collection that is in memory, when
    it is not empty and its urls are values of [normalizeUrl], reports that
    all links already exist and leaves the world as it is. *)
Theorem importLinks_own_export (exportedAt : jsstring) (links : list Link)
    (uuids : nat → jsstring) (clock : nat → Qc) (w : World) :
  links ≠ [] →
  Forall (λ l, normalizeUrl (url l) = url l) links →
  importLinks toLowerCase numberToString
    (Some (Return (exportLinks exportedAt links))) links uuids clock w
  = (Some AllExist, w).
Proof.
  intros Hne Hurls.
  destruct (normalizeImportedLinks_export exportedAt links uuids clock)
    as (ls & E & Hus & _).
  assert (Hus' : url <$> ls = url <$> links).
  { rewrite Hus. apply Forall_fmap_ext_1. exact Hurls. }
  unfold importLinks, importLinksWith. simpl mbind. unfold mbind, completion_bind.
  rewrite E.
  assert (Hlen : length ls = length links).
  { rewrite <- (length_fmap url ls), Hus', length_fmap. reflexivity. }
  rewrite bool_decide_eq_false_2
    by (rewrite Hlen; destruct links; [congruence | discriminate]).
  rewrite <- Hus'.
  assert (Hnil : filter (λ link, url link ∉ (list_to_set (url <$> ls) : gset jsstring)) ls = []).
  { assert (Hall : Forall (λ l, url l ∈ (list_to_set (url <$> ls) : gset jsstring)) ls).
    { apply Forall_forall. intros l Hl. apply elem_of_list_to_set.
      apply list_elem_of_fmap. exists l. auto. }
    clear -Hall. revert Hall. generalize (list_to_set (url <$> ls) : gset jsstring).
    intros g Hall. induction Hall as [|l ls' Hl _ IH]; [reflexivity|].
    rewrite filter_cons_False by auto. exact IH. }
  rewrite Hnil. reflexivity.
Qed.

End ExportImport.

Lemma exportable_linkX_linkY : Forall (exportable asciiToLowerCase) [linkX; linkY].
Proof.
  repeat constructor; try reflexivity; try discriminate;
    try (eexists; split; [reflexivity | discriminate]);
    try (eexists; reflexivity).
  intros H. unfold js in H. simpl in H.
  repeat (apply elem_of_cons in H as [H|H]; [discriminate|]).
  apply elem_of_nil in H. exact H.
Qed.

Lemma export_import_round_trip_witness :
  normalizeImportedLinks asciiToLowerCase (λ _, [])
    (exportLinks (js "2026-01-01T00:00:00.000Z") [linkX; linkY])
    (λ _, js "fresh") (λ _, ms 9000)
  = Return [linkX; linkY].
Proof.
  apply (export_import_round_trip asciiToLowerCase (λ _, [])
           (js "2026-01-01T00:00:00.000Z") [linkX; linkY]
           (λ _, js "fresh") (λ _, ms 9000)).
  exact exportable_linkX_linkY.
Defined.

Lemma importLinks_own_export_witness :
  importLinks asciiToLowerCase (λ _, [])
    (Some (Return (exportLinks (js "2026-01-01T00:00:00.000Z") [linkX])))
    [linkX] (λ _, js "fresh") (λ _, ms 9000) worldX
  = (Some AllExist, worldX).
Proof.
  apply (importLinks_own_export asciiToLowerCase (λ _, [])
           (js "2026-01-01T00:00:00.000Z") [linkX]
           (λ _, js "fresh") (λ _, ms 9000) worldX).
  - discriminate.
  - repeat constructor.
Defined.

(** ** Import: files without candidates, and files that make it fail *)

Section ImportErrors.

Variable toLowerCase : jsstring → jsstring.
Variable numberToString : number → jsstring.

Lemma toString_array_cons (x : value) (rest : list value) :
  Value.toString numberToString (VArray (x :: rest))
  = (s ← match x with
         | VUndefined | VNull => Return []
         | _ => Value.toString numberToString x
         end;
     match rest with
     | [] => Return s
     | _ => r ← Value.toString numberToString (VArray rest);
            Return (s ++ js "," ++ r)
     end).
Proof. reflexivity. Qed.

(** Induction on a value, through its arrays and objects. *)
Lemma value_nested_ind (P : value → Prop) :
  P VUndefined → P VNull → (∀ b, P (VBool b)) → (∀ n, P (VNumber n)) →
  (∀ s, P (VString s)) →
  (∀ xs, Forall P xs → P (VArray xs)) →
  (∀ props, Forall (λ kv, P kv.2) props → P (VObject props)) →
  ∀ v, P v.
Proof.
  intros Hu Hn Hb Hnum Hs Ha Ho. fix IH 1.
  intros [| |b|n|s|xs|props];
    [exact Hu | exact Hn | apply Hb | apply Hnum | apply Hs | |].
  - apply Ha. induction xs as [|x xs IHxs]; constructor; [apply IH | exact IHxs].
  - apply Ho. induction props as [|[k x] props IHprops]; constructor;
      [apply IH | exact IHprops].
Qed.

(** [toString] throws nothing but a [TypeError]. *)
Lemma toString_TypeError (v : value) (e : exn) :
  Value.toString numberToString v = Throw e → e = TypeError.
Proof.
  revert e. induction v as [| |b|n|s|xs IH|props _] using value_nested_ind;
    intros e; try (simpl; congruence).
  - induction IH as [|x rest Hx _ IHrest]; [simpl; discriminate|].
    rewrite toString_array_cons. unfold mbind, completion_bind.
    destruct (match x with
              | VUndefined | VNull => Return []
              | _ => Value.toString numberToString x
              end) as [sx|ex] eqn:Ex.
    + destruct rest as [|y rest']; [discriminate|].
      destruct (Value.toString numberToString (VArray (y :: rest')))
        as [r|er] eqn:Er; [discriminate|].
      intros [= <-]. apply IHrest. reflexivity.
    + intros [= <-]. destruct x; try discriminate; apply (Hx _ Ex).
  - simpl. destruct (Value.own (js "toString") props); congruence.
Qed.

Lemma importedTags_TypeError (ts : list value) (e : exn) :
  importedTags toLowerCase numberToString ts = Throw e → e = TypeError.
Proof.
  induction ts as [|t ts IH]; simpl; [discriminate|].
  unfold mbind, completion_bind in *.
  destruct (Value.toString numberToString t) as [s|et] eqn:Et.
  - destruct (importedTags toLowerCase numberToString ts); [discriminate|].
    intros [= <-]. apply IH. reflexivity.
  - intros [= <-]. apply (toString_TypeError _ _ Et).
Qed.

Lemma importedTags_null (ts : list value) :
  VNull ∈ ts ∨ VUndefined ∈ ts →
  importedTags toLowerCase numberToString ts = Throw TypeError.
Proof.
  induction ts as [|t ts IH]; intros H.
  - destruct H as [H|H]; apply elem_of_nil in H; contradiction.
  - simpl. unfold mbind, completion_bind.
    destruct (Value.toString numberToString t) as [s|e] eqn:Et.
    + rewrite IH; [reflexivity|].
      destruct H as [H|H]; apply elem_of_cons in H as [<-|H]; auto;
        discriminate.
    + rewrite (toString_TypeError _ _ Et). reflexivity.
Qed.

Lemma importedLink_TypeError (item : value) (raw uuid : jsstring) (now : Qc)
    (e : exn) :
  importedLink toLowerCase numberToString item raw uuid now = Throw e →
  e = TypeError.
Proof.
  unfold importedLink, mbind, completion_bind.
  destruct (Value.toString numberToString
              (if Value.truthy (Value.get (js "title") item) then _ else _))
    as [t|et] eqn:Et; [|intros [= <-]; apply (toString_TypeError _ _ Et)].
  destruct (Value.toString numberToString
              (if Value.truthy (Value.get (js "note") item) then _ else _))
    as [n|en] eqn:En; [|intros [= <-]; apply (toString_TypeError _ _ En)].
  destruct (Value.get (js "tags") item) as [| | | | |ts|]; try discriminate.
  destruct (importedTags toLowerCase numberToString ts) as [l|el] eqn:El;
    [discriminate|].
  intros [= <-]. apply (importedTags_TypeError _ _ El).
Qed.

Lemma importedLink_null_tag (item : value) (raw uuid : jsstring) (now : Qc)
    (ts : list value) :
  Value.get (js "tags") item = VArray ts →
  VNull ∈ ts ∨ VUndefined ∈ ts →
  importedLink toLowerCase numberToString item raw uuid now = Throw TypeError.
Proof.
  intros Hg Hnull.
  destruct (importedLink toLowerCase numberToString item raw uuid now)
    as [l|e] eqn:E; [|rewrite (importedLink_TypeError _ _ _ _ _ E); reflexivity].
  exfalso. revert E. unfold importedLink, mbind, completion_bind.
  rewrite Hg, (importedTags_null ts Hnull).
  destruct (Value.toString numberToString
              (if Value.truthy (Value.get (js "title") item) then _ else _));
    [|discriminate].
  destruct (Value.toString numberToString
              (if Value.truthy (Value.get (js "note") item) then _ else _));
    discriminate.
Qed.

Lemma importedLinks_null_tag (items : list (value * jsstring)) (i : nat)
    (uuids : nat → jsstring) (clock : nat → Qc)
    (item : value) (raw : jsstring) (ts : list value) :
  (item, raw) ∈ items →
  Value.get (js "tags") item = VArray ts →
  VNull ∈ ts ∨ VUndefined ∈ ts →
  importedLinks toLowerCase numberToString i items uuids clock = Throw TypeError.
Proof.
  intros Hin Hg Hnull. revert i.
  induction items as [|[item' raw'] items IH]; intros i.
  - apply elem_of_nil in Hin. contradiction.
  - simpl. unfold mbind, completion_bind.
    destruct (importedLink toLowerCase numberToString item' raw' (uuids i) (clock i))
      as [l|e] eqn:E; [|rewrite (importedLink_TypeError _ _ _ _ _ E); reflexivity].
    apply elem_of_cons in Hin as [[= <- <-]|Hin].
    + rewrite (importedLink_null_tag item raw (uuids i) (clock i) ts Hg Hnull) in E.
      discriminate.
    + rewrite (IH Hin (S i)). reflexivity.
Qed.

(** X18. One candidate with a string url whose tags array holds [null]
    makes the whole import fail: [normalizeImportedLinks] throws a
    [TypeError], whatever the other candidates are, and [importLinks]
    reports that the file could not be imported and writes nothing. *)
Theorem importLinks_null_tag (data item : value) (raw : jsstring)
    (ts : list value) (links : list Link) (uuids : nat → jsstring)
    (clock : nat → Qc) (w : World) :
  item ∈ candidates data →
  survivor item = Some (item, raw) →
  Value.get (js "tags") item = VArray ts →
  VNull ∈ ts →
  normalizeImportedLinks toLowerCase numberToString data uuids clock
  = Throw TypeError
  ∧ importLinks toLowerCase numberToString (Some (Return data)) links uuids clock w
    = (Some CouldNotImport, w).
Proof.
  intros Hin Hs Hg Hnull.
  assert (E : normalizeImportedLinks toLowerCase numberToString data uuids clock
              = Throw TypeError).
  { unfold normalizeImportedLinks, candidates in *.
    destruct (if Value.isArray data then data else Value.get (js "links") data)
      as [| | | | |items|]; try (apply elem_of_nil in Hin; contradiction).
    apply (importedLinks_null_tag _ 0 uuids clock item raw ts); auto.
    apply list_elem_of_omap. exists item. auto. }
  split; [exact E|].
  unfold importLinks, importLinksWith. simpl mbind.
  unfold mbind, completion_bind. rewrite E. reflexivity.
Qed.

(** X19. A file in which no candidate has a string url, or which holds no
    array of candidates at all, is reported as holding no valid links, and
    nothing is written. *)
Theorem importLinks_no_candidates (data : value) (links : list Link)
    (uuids : nat → jsstring) (clock : nat → Qc) (w : World) :
  Forall (λ item, survivor item = None) (candidates data) →
  importLinks toLowerCase numberToString (Some (Return data)) links uuids clock w
  = (Some NoValidLinks, w).
Proof.
  intros H.
  assert (E : normalizeImportedLinks toLowerCase numberToString data uuids clock
              = Return []).
  { unfold normalizeImportedLinks, candidates in *.
    destruct (if Value.isArray data then data else Value.get (js "links") data)
      as [| | | | |items|]; try reflexivity.
    replace (omap survivor items) with (@nil (value * jsstring)); [reflexivity|].
    induction H as [|item items Hitem _ IH]; [reflexivity|].
    transitivity
      (match survivor item with
       | Some y => y :: omap survivor items
       | None => omap survivor items
       end); [|reflexivity].
    rewrite Hitem. exact IH. }
  unfold importLinks, importLinksWith. simpl mbind.
  unfold mbind, completion_bind. rewrite E. reflexivity.
Qed.

End ImportErrors.

Lemma importLinks_null_tag_witness :
  importLinks asciiToLowerCase (λ _, [])
    (Some (Return (VArray
       [ VObject [ (js "url", VString (js "https://y.com")) ];
         VObject [ (js "url", VString (js "z.com"));
                   (js "tags", VArray [VString (js "news"); VNull]) ] ])))
    [linkX] (λ _, js "fresh") (λ _, ms 9000) worldX
  = (Some CouldNotImport, worldX).
Proof.
  destruct (importLinks_null_tag asciiToLowerCase (λ _, [])
              (VArray
                 [ VObject [ (js "url", VString (js "https://y.com")) ];
                   VObject [ (js "url", VString (js "z.com"));
                             (js "tags", VArray [VString (js "news"); VNull]) ] ])
              (VObject [ (js "url", VString (js "z.com"));
                         (js "tags", VArray [VString (js "news"); VNull]) ])
              (js "z.com") [VString (js "news"); VNull]
              [linkX] (λ _, js "fresh") (λ _, ms 9000) worldX) as [_ H].
  - right. left.
  - reflexivity.
  - reflexivity.
  - right. left.
  - exact H.
Defined.

Lemma importLinks_no_candidates_witness :
  importLinks asciiToLowerCase (λ _, [])
    (Some (Return (VObject [ (js "links", VArray [VNull; VNumber (int 7);
                                                 VObject [ (js "url", VNumber (int 1)) ]]) ])))
    [linkX] (λ _, js "fresh") (λ _, ms 9000) worldX
  = (Some NoValidLinks, worldX).
Proof.
  apply (importLinks_no_candidates asciiToLowerCase (λ _, [])
           (VObject [ (js "links", VArray [VNull; VNumber (int 7);
                                           VObject [ (js "url", VNumber (int 1)) ]]) ])
           [linkX] (λ _, js "fresh") (λ _, ms 9000) worldX).
  repeat constructor.
Defined.

Lemma omap_survivor_length (items : list value) :
  (length (omap survivor items) ≤ length items)%nat.
Proof.
  induction items as [|item items IH]; [reflexivity|].
  change (omap survivor (item :: items))
    with (match survivor item with
          | Some y => y :: omap survivor items
          | None => omap survivor items
          end).
  destruct (survivor item); simpl; lia.
Qed.

Section ImportShape.

Variable toLowerCase : jsstring → jsstring.
Variable numberToString : number → jsstring.

Lemma importedLink_shape (item : value) (raw uuid : jsstring) (now : Qc) (l : Link) :
  importedLink toLowerCase numberToString item raw uuid now = Return l →
  importedShape l.
Proof.
  unfold importedLink, mbind, completion_bind.
  destruct (Value.toString numberToString
              (if Value.truthy (Value.get (js "title") item) then _ else _))
    as [t|]; [|discriminate].
  destruct (Value.toString numberToString
              (if Value.truthy (Value.get (js "note") item) then _ else _))
    as [n|]; [|discriminate].
  destruct (match Value.get (js "tags") item with VArray _ => _ | _ => _ end)
    as [ts|] eqn:Ets; [|discriminate].
  intros [= <-]. unfold importedShape. simpl.
  split; [destruct (Value.get (js "createdAt") item) as [| | |[]| | |]; eexists; reflexivity|].
  split; [destruct (Value.get (js "updatedAt") item) as [| | |[]| | |]; eexists; reflexivity|].
  split; [|split; [apply trim_idempotent|split; [apply trim_idempotent|]]].
  - destruct raw as [|c r]; [left; reflexivity|]. right.
    apply normalizeUrl_scheme. discriminate.
  - destruct (Value.get (js "tags") item) as [| | | | |tags0|];
      try (injection Ets as <-; constructor).
    destruct (importedTags toLowerCase numberToString tags0) as [l0|];
      [|discriminate].
    injection Ets as <-. apply Forall_forall. intros tag Htag.
    apply list_elem_of_filter in Htag as [Htag _].
    destruct tag; [contradiction | discriminate].
Qed.

Lemma importedLinks_shape (items : list (value * jsstring)) (i : nat)
    (uuids : nat → jsstring) (clock : nat → Qc) (ls : list Link) :
  importedLinks toLowerCase numberToString i items uuids clock = Return ls →
  length ls = length items ∧ Forall importedShape ls.
Proof.
  revert i ls. induction items as [|[item raw] items IH]; intros i ls; simpl.
  - intros [= <-]. split; [reflexivity | constructor].
  - unfold mbind, completion_bind.
    destruct (importedLink toLowerCase numberToString item raw (uuids i) (clock i))
      as [l|] eqn:El; [|discriminate].
    destruct (importedLinks toLowerCase numberToString (S i) items uuids clock)
      as [ls'|] eqn:Els; [|discriminate].
    intros [= <-]. destruct (IH _ _ Els) as [Hlen Hall]. split.
    + simpl. rewrite Hlen. reflexivity.
    + constructor; [exact (importedLink_shape _ _ _ _ _ El) | exact Hall].
Qed.

(** X20. Whatever the file holds, the records [normalizeImportedLinks]
    returns are no more than the candidates, and each has finite
    timestamps, a url that is empty or starts with a scheme, a title and a
    note without white space at the ends, and no empty tag. *)
Theorem normalizeImportedLinks_shape (data : value) (uuids : nat → jsstring)
    (clock : nat → Qc) (ls : list Link) :
  normalizeImportedLinks toLowerCase numberToString data uuids clock = Return ls →
  (length ls ≤ length (candidates data))%nat ∧ Forall importedShape ls.
Proof.
  unfold normalizeImportedLinks, candidates.
  destruct (if Value.isArray data then data else Value.get (js "links") data)
    as [| | | | |items|]; try (intros [= <-]; split; [simpl; lia | constructor]).
  intros H. destruct (importedLinks_shape _ _ _ _ _ H) as [Hlen Hall].
  split; [|exact Hall]. rewrite Hlen. apply omap_survivor_length.
Qed.

End ImportShape.

Lemma normalizeImportedLinks_shape_witness :
  Forall importedShape
    [ {| id := VString (js "fresh"); url := js "https://z.com";
         title := js "https://z.com"; note := []; tags := [js "news"];
         createdAt := Finite (ms 9000); updatedAt := int 5 |} ].
Proof.
  destruct (normalizeImportedLinks_shape asciiToLowerCase (λ _, [])
              (VArray [ VObject [ (js "url", VString (js " z.com "));
                                  (js "tags", VArray [VString (js " News "); VString []]);
                                  (js "createdAt", VString (js "yesterday"));
                                  (js "updatedAt", VNumber (int 5)) ] ])
              (λ _, js "fresh") (λ _, ms 9000)
              [ {| id := VString (js "fresh"); url := js "https://z.com";
                   title := js "https://z.com"; note := []; tags := [js "news"];
                   createdAt := Finite (ms 9000); updatedAt := int 5 |} ])
    as [_ H]; [reflexivity | exact H].
Defined.
